(** * my-tinypng: the batch compression engine of [lib/compress.js]

    A shallow embedding of [compressOnce], [downloadCompressed],
    [compressImage], [compressBatch] and [printSummary], together with the
    helpers of [lib/utils.js] they call, and the properties of the engine:
    the concurrency bound of the scheduler, exactly-once outcomes, the retry
    loop and its failure classification, and the batch summary.  Around
    the engine, [dedupe] of [bin/tinypng.js], which prepares the file list,
    and the resolution of the configuration by [getConfig] of
    [lib/config.js].

    Conventions.  JavaScript numbers that hold counters and byte counts are
    integers and are modelled as [Z]; the two places that divide
    ([formatSize] and the saved percentage) go through IEEE 754 binary64
    with the kernel's primitive floats, as the JavaScript engine does.
    An optional argument is an [option]: [None] is [undefined].  The file
    system is a finite map from paths to contents.  The remote service is
    the environment: what it does during one attempt is an [Exchange]. *)

From Stdlib Require Import ZArith PrimFloat FloatOps SpecFloat Uint63.
From stdpp Require Import gmap strings list list_numbers pretty relations.

Open Scope Z_scope.

Set Default Proof Using "Type".

(** ** JavaScript values and built-ins used by the engine *)

Module JS.

(** [v || d] for an optional number: [undefined] and [0] are falsy. *)
Definition or_number (v : option Z) (d : Z) : Z :=
  match v with
  | Some n => if n =? 0 then d else n
  | None => d
  end.

(** [v !== undefined ? v : d]. *)
Definition defined_or (v : option Z) (d : Z) : Z :=
  match v with
  | Some n => n
  | None => d
  end.

(** Truthiness of an optional string (a header that may be absent). *)
Definition truthy_string (v : option string) : bool :=
  match v with
  | Some s => negb (String.eqb s EmptyString)
  | None => false
  end.

(** A value that is either a number or a string, as [percent] is. *)
Inductive Value :=
| Number (n : Z)
| Str (s : string).

(** Interpolation in a template literal. *)
Definition template (v : Value) : string :=
  match v with
  | Number n => pretty n
  | Str s => s
  end.

(** The binary64 value of an integer.  Exact for [|z| < 2^53]; the
    conversion is through a 63-bit integer, so the embedding covers
    operands below [2^63]. *)
Definition to_float (z : Z) : float :=
  if z <? 0
  then PrimFloat.opp (PrimFloat.of_uint63 (Uint63.of_Z (- z)))
  else PrimFloat.of_uint63 (Uint63.of_Z z).

(** Two decimal digits, zero padded. *)
Definition two_digits (n : Z) : string :=
  if n <? 10 then "0" +:+ pretty n else pretty n.

(** [Number.prototype.toFixed(2)] (ECMA-262, 21.1.3.3): with [x] the
    exact real value of the double, [n] is the integer for which
    [n / 100 - |x|] is closest to zero, the larger one on a tie; the
    result is the sign, the digits of [n] with at least three of them,
    and a point before the last two.  The exponent-notation branch
    ([|x| >= 10^21]) is not reached by this program: its operands are
    quotients of byte counts. *)
Definition toFixed2 (x : float) : string :=
  match Prim2SF x with
  | S754_nan => "NaN"
  | S754_infinity s => if s then "-Infinity" else "Infinity"
  | S754_zero _ => "0.00"
  | S754_finite s m e =>
      let n :=
        if 0 <=? e
        then Z.pos m * 2 ^ e * 100
        else (2 * (Z.pos m * 100) + 2 ^ (- e)) / (2 * 2 ^ (- e)) in
      (if s then "-" else EmptyString) +:+ pretty (n / 100) +:+ "." +:+ two_digits (n mod 100)
  end.

End JS.

Definition ESC : string := String (Ascii.ascii_of_nat 27) EmptyString.
Definition NL : string := String (Ascii.ascii_of_nat 10) EmptyString.

(** ** Data model *)

(** What [compressOnce] resolves with. *)
Record AttemptResult := {
  file : string;
  oldSize : Z;
  newSize : Z;
  success : bool;
  retryable : bool;
  errorMsg : option string
}.

(** What [compressBatch] resolves with. *)
Record BatchSummary := {
  totalOldSize : Z;
  totalNewSize : Z;
  failCount : Z;
  summary_results : list AttemptResult
}.

Record Progress := { progress_index : Z; progress_total : Z }.

(** A promise settles: it is fulfilled with a value, or an exception
    escapes and it is rejected. *)
Inductive Settled (A : Type) :=
| Fulfilled (a : A)
| Rejected (e : string).
Arguments Fulfilled {A} a.
Arguments Rejected {A} e.

(** The file system: path to content. *)
Abbreviation Storage := (gmap string (list Byte.byte)).

(** [fs.statSync(file).size]; [None] when the call throws. *)
Definition statSync_size (fs : Storage) (path : string) : option Z :=
  (fun content => Z.of_nat (length content)) <$> fs !! path.

(** [fs.readFileSync(file)]. *)
Definition readFileSync (fs : Storage) (path : string) : option (list Byte.byte) :=
  fs !! path.

(** [fs.writeFileSync(file, data)].  A path of the storage is a file
    that the process can read and write: a write to it succeeds.  A file
    that can be read but not written is not in the model; for such a
    file the call would throw in the handler of the download. *)
Definition writeFileSync (fs : Storage) (path : string) (data : list Byte.byte) : Storage :=
  <[path := data]> fs.

(** The second request, to the location returned by the service: a
    response arrives, with a status that the engine does not read and a
    body, or the request fails.  The location is taken to be a URL that
    [https.get] accepts; for another one the call would throw in the
    handler of the upload, which is not in the model. *)
Inductive Download :=
| DownloadEnd (imgStatus : Z) (imgData : list Byte.byte)
| DownloadError (message : string).

(** What the remote service does during one attempt: the upload request
    fails, or a response arrives with a status, possibly a [location]
    header, and a body; [download] is what fetching that location does,
    when the engine fetches it. *)
Inductive Exchange :=
| RequestError (message : string)
| ResponseEnd (statusCode : Z) (location : option string) (body : string)
    (download : Download).

(** ** [bin/tinypng.js]: the file list *)

(** [set.add(value)] on a [Set], kept as its values in insertion order. *)
Definition Set_add (set : list string) (value : string) : list string :=
  if bool_decide (value ∈ set) then set else set ++ [value].

(** [dedupe(files)]: [[...new Set(files)]]. *)
Definition dedupe (files : list string) : list string := foldl Set_add [] files.

(** ** [lib/config.js] *)

Module Config.

(** What [JSON.parse] returns. *)
#[warnings="-register-all"]
Inductive Json :=
| JNull
| JBool (b : bool)
| JNumber (x : float)
| JString (s : string)
| JArray (items : list Json)
| JObject (fields : list (string * Json)).

(** Truthiness; [None] is [undefined]. *)
Definition truthy (v : option Json) : bool :=
  match v with
  | None | Some JNull => false
  | Some (JBool b) => b
  | Some (JNumber x) => negb (PrimFloat.is_zero x || PrimFloat.is_nan x)
  | Some (JString s) => negb (String.eqb s EmptyString)
  | Some (JArray _) | Some (JObject _) => true
  end.

(** The value of a key among the properties of an object. *)
Fixpoint field (key : string) (fields : list (string * Json)) : option Json :=
  match fields with
  | [] => None
  | (k, v) :: rest => if String.eqb k key then Some v else field key rest
  end.

(** [v.key] for the keys this module reads ([apiKey], [tinypng],
    [maxConcurrency], [retries], [autoStage], [respectGitignore]): none of
    them is a property of the prototypes of numbers, strings, booleans or
    arrays, so only an object has one. *)
Definition get (v : Json) (key : string) : option Json :=
  match v with
  | JObject fields => field key fields
  | _ => None
  end.

(** [{ ...fields, key: value }]: the value of an existing key is replaced
    where it is, a new key comes last. *)
Fixpoint set_field (key : string) (value : Json) (fields : list (string * Json))
    : list (string * Json) :=
  match fields with
  | [] => [(key, value)]
  | (k, v) :: rest =>
      if String.eqb k key then (k, value) :: rest
      else (k, v) :: set_field key value rest
  end.

(** What [getConfig] returns. *)
Record Resolved := {
  apiKey : option Json;
  maxConcurrency : Json;
  retries : Json;
  autoStage : bool;
  respectGitignore : bool;
  source : string
}.

Definition normalizeConfig (raw : Json) (source : string) : Resolved :=
  {| apiKey := get raw "apiKey";
     maxConcurrency :=
       match get raw "maxConcurrency" with
       | Some v => if truthy (Some v) then v else JNumber 5
       | None => JNumber 5
       end;
     retries := default (JNumber 3) (get raw "retries");
     autoStage :=
       match get raw "autoStage" with Some (JBool false) => false | _ => true end;
     respectGitignore :=
       match get raw "respectGitignore" with Some (JBool false) => false | _ => true end;
     source := source |}.

Definition DQ : string := String (Ascii.ascii_of_nat 34) EmptyString.

(** The message of the error thrown by [getConfig]. *)
Definition API_KEY_NOT_FOUND : string :=
  String.concat NL
    [ "API Key not found! Please configure it in one of the following ways:";
      EmptyString;
      "  1. Environment variable:";
      "     export TINYPNG_API_KEY=<YOUR_API_KEY>";
      EmptyString;
      "  2. Global config (recommended for global install):";
      "     tinypng config set apiKey <YOUR_API_KEY>";
      EmptyString;
      "  3. Project config (recommended for project integration):";
      "     Create .tinypngrc in project root:";
      "     { " +:+ DQ +:+ "apiKey" +:+ DQ +:+ ": " +:+ DQ +:+ "YOUR_API_KEY" +:+ DQ +:+ " }";
      EmptyString;
      "  4. Add " +:+ DQ +:+ "tinypng" +:+ DQ +:+ " field in package.json:";
      "     { " +:+ DQ +:+ "tinypng" +:+ DQ +:+ ": { " +:+ DQ +:+ "apiKey" +:+ DQ +:+ ": "
        +:+ DQ +:+ "YOUR_API_KEY" +:+ DQ +:+ " } }" ].

Section Resolve.

(** [JSON.parse]; [None] when it throws. *)
Variable JSON_parse : string -> option Json.

(** [String.prototype.trim]. *)
Variable trim : string -> string.

(** [path.join]. *)
Variable path_join : string -> string -> string.

(** [path.join(os.homedir(), '.tinypngrc')]. *)
Variable GLOBAL_CONFIG_PATH : string.

(** [process.cwd()]. *)
Variable process_cwd : string.

Definition PROJECT_CONFIG_NAME : string := ".tinypngrc".

(** [readJsonConfig(filePath)] on the text files [fs]: [JNull] is [null].
    A file that cannot be read and a text that does not parse both throw
    inside the [try]. *)
Definition readJsonConfig (fs : gmap string string) (filePath : string) : Json :=
  match fs !! filePath with
  | None => JNull
  | Some text =>
      let content := trim text in
      if String.eqb content EmptyString then JNull
      else default JNull (JSON_parse content)
  end.

Definition readPackageJsonConfig (fs : gmap string string) (projectDir : string) : Json :=
  let pkgPath := path_join projectDir "package.json" in
  let pkg := readJsonConfig fs pkgPath in
  match get pkg "tinypng" with
  | Some v => if truthy (Some pkg) && truthy (Some v) then v else JNull
  | None => JNull
  end.

Definition readProjectConfig (fs : gmap string string) (projectDir : string) : Json :=
  let rcPath := path_join projectDir PROJECT_CONFIG_NAME in
  readJsonConfig fs rcPath.

Definition readGlobalConfig (fs : gmap string string) : Json :=
  readJsonConfig fs GLOBAL_CONFIG_PATH.

(** [candidate && candidate.apiKey]. *)
Definition has_apiKey (candidate : Json) : bool :=
  truthy (Some candidate) && truthy (get candidate "apiKey").

(** The three [if] that choose [fileConfig] and [fileSource]; [JNull] is
    the [null] that [fileConfig] starts with. *)
Definition fileConfig_of (fs : gmap string string) (cwd : string) : Json * string :=
  let projectRc := readProjectConfig fs cwd in
  let '(fileConfig, fileSource) :=
    if has_apiKey projectRc then (projectRc, "project (.tinypngrc)")
    else (JNull, EmptyString) in
  let '(fileConfig, fileSource) :=
    if negb (truthy (Some fileConfig)) then
      let pkgConfig := readPackageJsonConfig fs cwd in
      if has_apiKey pkgConfig then (pkgConfig, "project (package.json)")
      else (fileConfig, fileSource)
    else (fileConfig, fileSource) in
  if negb (truthy (Some fileConfig)) then
    let globalRc := readGlobalConfig fs in
    if has_apiKey globalRc then (globalRc, "global (~/.tinypngrc)")
    else (fileConfig, fileSource)
  else (fileConfig, fileSource).

(** [projectDir || process.cwd()]. *)
Definition cwd (projectDir : option string) : string :=
  match projectDir with
  | Some d => if String.eqb d EmptyString then process_cwd else d
  | None => process_cwd
  end.

(** [getConfig(projectDir)] with [envKey] the value of
    [process.env.TINYPNG_API_KEY].  [fileConfig] is an object whenever it
    is not [null], so [{...(fileConfig || {}), apiKey: envKey}] spreads an
    object. *)
Definition getConfig (fs : gmap string string) (envKey : option string)
    (projectDir : option string) : Settled Resolved :=
  let cwd := cwd projectDir in
  let '(fileConfig, fileSource) := fileConfig_of fs cwd in
  match envKey with
  | Some key =>
      if negb (String.eqb key EmptyString) then
        let own := match fileConfig with JObject fields => fields | _ => [] end in
        let merged := JObject (set_field "apiKey" (JString key) own) in
        Fulfilled (normalizeConfig merged "env (TINYPNG_API_KEY)")
      else if truthy (Some fileConfig) then Fulfilled (normalizeConfig fileConfig fileSource)
      else Rejected API_KEY_NOT_FOUND
  | None =>
      if truthy (Some fileConfig) then Fulfilled (normalizeConfig fileConfig fileSource)
      else Rejected API_KEY_NOT_FOUND
  end.

End Resolve.

(** *** Sample data *)

(** A parser that knows three texts. *)
Definition sample_parse (text : string) : option Json :=
  if String.eqb text "{key, maxConcurrency: 2}"
  then Some (JObject [("apiKey", JString "secret"); ("maxConcurrency", JNumber 2)])
  else if String.eqb text "{retries: 7}" then Some (JObject [("retries", JNumber 7)])
  else if String.eqb text "{tinypng: {key}}"
  then Some (JObject [("name", JString "app");
                      ("tinypng", JObject [("apiKey", JString "package")])])
  else None.

Definition sample_join (dir name : string) : string := dir +:+ "/" +:+ name.

(** A project whose [.tinypngrc] has settings but no key, beside a global
    file with a key. *)
Definition sample_files : gmap string string :=
  {[ "/app/.tinypngrc" := "{retries: 7}";
     "/home/.tinypngrc" := "{key, maxConcurrency: 2}" ]}.

(** A project whose [.tinypngrc] has a key, beside a [package.json] with
    another. *)
Definition sample_project : gmap string string :=
  {[ "/app/.tinypngrc" := "{key, maxConcurrency: 2}";
     "/app/package.json" := "{tinypng: {key}}" ]}.

End Config.

(** ** [lib/utils.js] *)

Section Engine.

(** [process.stdout.isTTY]. *)
Variable isTTY : bool.

(** [JSON.parse(body)] followed by the interpolation
    [`${err.error}, ${err.message}`]: [None] when parsing, or reading a
    property of the parsed value, throws. *)
Variable JSON_parse_error : string -> option string.

Definition color (str code : string) : string :=
  if negb isTTY then str
  else ESC +:+ "[" +:+ code +:+ "m" +:+ str +:+ ESC +:+ "[0m".

Definition formatSize (bytes : Z) : string :=
  if 1024 * 1024 <=? bytes
  then JS.toFixed2 (PrimFloat.div (JS.to_float bytes) (JS.to_float (1024 * 1024))) +:+ " MB"
  else JS.toFixed2 (PrimFloat.div (JS.to_float bytes) (JS.to_float 1024)) +:+ " KB".

(** [info], [warn] and [console.log] write a line to standard output. *)
Definition info (message : string) : string := color message "1;36".

(** ** The transfer unit *)

Definition NON_RETRYABLE_STATUS : list Z := [401; 415].

Definition NON_RETRYABLE_STATUS_has (statusCode : Z) : bool :=
  bool_decide (statusCode ∈ NON_RETRYABLE_STATUS).

Definition downloadCompressed (fs : Storage) (path : string) (old : Z)
    (download : Download) : Settled (Storage * AttemptResult) :=
  match download with
  | DownloadEnd _ imgData =>
      let fs' := writeFileSync fs path imgData in
      match statSync_size fs' path with
      | Some new =>
          Fulfilled (fs', {| file := path; oldSize := old; newSize := new;
                             success := true; retryable := false; errorMsg := None |})
      | None => Rejected "ENOENT"
      end
  | DownloadError message =>
      Fulfilled (fs, {| file := path; oldSize := old; newSize := old;
                        success := false; retryable := true; errorMsg := Some message |})
  end.

(** One attempt.  [apiKey] only builds the [Authorization] header: it is
    visible to the service, whose behaviour is the [Exchange]. *)
Definition compressOnce (fs : Storage) (path apiKey : string) (x : Exchange)
    : Settled (Storage * AttemptResult) :=
  match statSync_size fs path, readFileSync fs path with
  | Some old, Some buffer =>
      match x with
      | ResponseEnd statusCode location body download =>
          if (statusCode =? 201) && JS.truthy_string location
          then downloadCompressed fs path old download
          else
            let msg := default ("HTTP " +:+ pretty statusCode) (JSON_parse_error body) in
            let retry := negb (NON_RETRYABLE_STATUS_has statusCode) in
            Fulfilled (fs, {| file := path; oldSize := old; newSize := old;
                              success := false; retryable := retry; errorMsg := Some msg |})
      | RequestError message =>
          Fulfilled (fs, {| file := path; oldSize := old; newSize := old;
                            success := false; retryable := true; errorMsg := Some message |})
      end
  | _, _ => Rejected "ENOENT"
  end.

(** A failure, as data: the size is unchanged and there is a message. *)
Definition failed_attempt (r : AttemptResult) : Prop :=
  success r = false /\ newSize r = oldSize r /\ is_Some (errorMsg r).

(** ** The retrying attempt controller *)

Inductive LogLine :=
| Compressed (tag : option Progress) (path : string) (saved : Z) (percent : JS.Value)
| Failed (tag : option Progress) (path : string) (message : option string)
| Retrying (tag : option Progress) (attempt maxAttempts : Z) (path : string)
    (message : option string) (seconds : Z).

(** What an invocation of [compressImage] does, in order. *)
Inductive Event :=
| Attempt (attempt : Z)
| Log (line : LogLine)
| Sleep (ms : Z).

Record Invocation := {
  inv_fs : Storage;
  inv_trace : list Event;
  inv_out : Settled (option AttemptResult)
}.

Definition savedPercent (old new : Z) : JS.Value :=
  if old =? 0 then JS.Number 0
  else JS.Str (JS.toFixed2
         (PrimFloat.mul (PrimFloat.div (JS.to_float (old - new)) (JS.to_float old))
                        (JS.to_float 100))).

Section Loop.
Variables (path apiKey : string) (progress : option Progress) (maxAttempts : Z).
(** The network, as seen by this invocation: the exchange of each
    attempt. *)
Variable net : Z -> Exchange.

(** The body of [for (attempt = 1; attempt <= maxAttempts; attempt++)],
    over the values [attempt] still has to take; [result] is the
    variable declared before the loop, returned as it is when the loop
    ends by its condition. *)
Fixpoint attempts (todo : list Z) (result : option AttemptResult) (fs : Storage)
    : Invocation :=
  match todo with
  | [] => {| inv_fs := fs; inv_trace := []; inv_out := Fulfilled result |}
  | attempt :: todo' =>
      match compressOnce fs path apiKey (net attempt) with
      | Rejected e =>
          {| inv_fs := fs; inv_trace := [Attempt attempt]; inv_out := Rejected e |}
      | Fulfilled (fs', r) =>
          if success r then
            let saved := oldSize r - newSize r in
            let percent := savedPercent (oldSize r) (newSize r) in
            {| inv_fs := fs';
               inv_trace := [Attempt attempt; Log (Compressed progress path saved percent)];
               inv_out := Fulfilled (Some r) |}
          else if negb (retryable r) || (attempt =? maxAttempts) then
            {| inv_fs := fs';
               inv_trace := [Attempt attempt; Log (Failed progress path (errorMsg r))];
               inv_out := Fulfilled (Some r) |}
          else
            let rest := attempts todo' (Some r) fs' in
            {| inv_fs := inv_fs rest;
               inv_trace :=
                 [Attempt attempt;
                  Log (Retrying progress attempt maxAttempts path (errorMsg r) attempt);
                  Sleep (attempt * 1000)] ++ inv_trace rest;
               inv_out := inv_out rest |}
      end
  end.
End Loop.

Definition maxAttempts_of (retries : option Z) : Z := JS.or_number retries 0 + 1.

Definition compressImage (path apiKey : string) (progress : option Progress)
    (retries : option Z) (net : Z -> Exchange) (fs : Storage) : Invocation :=
  let maxAttempts := maxAttempts_of retries in
  attempts path apiKey progress maxAttempts net (seqZ 1 maxAttempts) None fs.

(** The attempts made, and the delays waited, in a trace. *)
Definition attempts_made (trace : list Event) : list Z :=
  omap (fun e => match e with Attempt a => Some a | _ => None end) trace.

Definition sleeps (trace : list Event) : list Z :=
  omap (fun e => match e with Sleep ms => Some ms | _ => None end) trace.

(** The lines logged, in a trace. *)
Definition logs (trace : list Event) : list LogLine :=
  omap (fun e => match e with Log line => Some line | _ => None end) trace.

(** The line logged for the result an invocation returns: that of
    [success(...)] or that of [error(...)]. *)
Definition outcome_line (progress : option Progress) (path : string) (r : AttemptResult)
    : LogLine :=
  if success r
  then Compressed progress path (oldSize r - newSize r)
         (savedPercent (oldSize r) (newSize r))
  else Failed progress path (errorMsg r).

(** A trace without its log lines: the attempts and the waits, in order. *)
Definition is_log (e : Event) : bool :=
  match e with Log _ => true | _ => false end.

Definition timeline (trace : list Event) : list Event :=
  filter (fun e => negb (is_log e)) trace.

(** ** The aggregator *)

(** The sum of a list of numbers. *)
Definition sumZ (l : list Z) : Z := foldr Z.add 0 l.

(** The three reductions of the completion callback.  An array element that
    is [undefined] makes [r.oldSize] throw a [TypeError]: [None]. *)
Definition summarise (results : list (option AttemptResult)) : option BatchSummary :=
  rs ← mapM id results;
  Some {| totalOldSize := foldl (fun sum r => sum + oldSize r) 0 rs;
          totalNewSize := foldl (fun sum r => sum + newSize r) 0 rs;
          failCount := Z.of_nat (length (filter (fun r => negb (success r)) rs));
          summary_results := rs |}.

(** The lines [printSummary] writes. *)
Definition printSummary (totalOldSize totalNewSize fileCount failCount : Z) : list string :=
  let totalSaved := totalOldSize - totalNewSize in
  let totalPercent := savedPercent totalOldSize totalNewSize in
  [ info (NL +:+ "=== Summary ===");
    info ("Files: " +:+ pretty fileCount +:+
          (if 0 <? failCount then color (" (" +:+ pretty failCount +:+ " failed)") "1;31" else EmptyString));
    color ("Before: " +:+ formatSize totalOldSize) "33";
    color ("After:  " +:+ formatSize totalNewSize) "32";
    color ("Saved:  " +:+ formatSize totalSaved) "1;33";
    color ("Ratio:  " +:+ JS.template totalPercent +:+ "%") "1;34" ].

(** ** The bounded scheduler *)

(** An invocation [compressImage(currentFile, apiKey, progress, retries)]
    whose promise has not settled yet. *)
Record Task := { task_file : string; task_progress : Progress }.

(** The variables of the closure of [compressBatch], the calls of [resolve]
    so far, and the pending invocations.  [admitted] is a history variable:
    every invocation started so far, in order. *)
Record Scheduler := {
  index : Z;
  running : Z;
  progressIndex : Z;
  results : list (option AttemptResult);
  resolved : list BatchSummary;
  active : list Task;
  admitted : list Task
}.

Section Batch.
Variables (files : list string) (apiKey : string) (maxConcurrency retries : option Z).

(** [maxConcurrency = maxConcurrency || 5]. *)
Definition limit : Z := JS.or_number maxConcurrency 5.

(** [retries = retries !== undefined ? retries : 3]. *)
Definition budget : Z := JS.defined_or retries 3.

Definition total : Z := Z.of_nat (length files).

Definition initial : Scheduler :=
  {| index := 0; running := 0; progressIndex := 0; results := []; resolved := [];
     active := []; admitted := [] |}.

(** The condition of the [while] of [next]. *)
Definition guard (s : Scheduler) : bool :=
  (running s <? limit) && (index s <? Z.of_nat (length files)).

(** One iteration of the [while] of [next].  Under [guard] the index is in
    range; out of range [files[index]] would be [undefined]. *)
Definition admit_next (s : Scheduler) : Scheduler :=
  let currentFile := default "undefined" (files !! Z.to_nat (index s)) in
  let progress := {| progress_index := progressIndex s + 1; progress_total := total |} in
  let task := {| task_file := currentFile; task_progress := progress |} in
  {| index := index s + 1; running := running s + 1; progressIndex := progressIndex s + 1;
     results := results s; resolved := resolved s;
     active := active s ++ [task]; admitted := admitted s ++ [task] |}.

(** [next()]: iterate while the condition holds.  Every iteration
    increments [index], so [total - index] iterations are enough
    ([next_guard]). *)
Fixpoint next_loop (fuel : nat) (s : Scheduler) : Scheduler :=
  match fuel with
  | O => s
  | S fuel' => if guard s then next_loop fuel' (admit_next s) else s
  end.

Definition next (s : Scheduler) : Scheduler :=
  next_loop (Z.to_nat (total - index s)) s.

(** The promise of an invocation settles: it leaves the pending ones. *)
Definition retire (s : Scheduler) (i : nat) : Scheduler :=
  {| index := index s; running := running s; progressIndex := progressIndex s;
     results := results s; resolved := resolved s;
     active := delete i (active s); admitted := admitted s |}.

(** The completion callback, up to the call of [next]: first [running--]
    and [results.push(result)]. *)
Definition record_result (s : Scheduler) (result : option AttemptResult) : Scheduler :=
  {| index := index s; running := running s - 1; progressIndex := progressIndex s;
     results := results s ++ [result]; resolved := resolved s;
     active := active s; admitted := admitted s |}.

(** [resolve(summary)]: the calls are recorded; the promise is fulfilled
    by the first. *)
Definition resolve (s : Scheduler) (summary : BatchSummary) : Scheduler :=
  {| index := index s; running := running s; progressIndex := progressIndex s;
     results := results s; resolved := resolved s ++ [summary];
     active := active s; admitted := admitted s |}.

(** [if (results.length === total) { ...; resolve(...) }].  [Rejected]
    when the reductions throw: the callback ends there. *)
Definition check_complete (s : Scheduler) : Settled Scheduler :=
  if Z.of_nat (length (results s)) =? total then
    match summarise (results s) with
    | Some summary => Fulfilled (resolve s summary)
    | None => Rejected "TypeError"
    end
  else Fulfilled s.

(** The whole callback passed to [then]. *)
Definition callback (s : Scheduler) (result : option AttemptResult) : Scheduler :=
  let s1 := record_result s result in
  match check_complete s1 with
  | Fulfilled s2 => next s2
  | Rejected _ => s1
  end.

(** The [i]-th pending invocation settles with [out].  [then] was given no
    rejection handler: when the promise is rejected, nothing runs. *)
Definition settle (s : Scheduler) (i : nat) (out : Settled (option AttemptResult))
    : Scheduler :=
  match out with
  | Fulfilled result => callback (retire s i) result
  | Rejected _ => retire s i
  end.

(** What an invocation started for [t] can settle with: the outcome of
    [compressImage] against some network behaviour and some storage. *)
Definition possible_outcome (t : Task) (out : Settled (option AttemptResult)) : Prop :=
  exists net fs,
    inv_out (compressImage (task_file t) apiKey (Some (task_progress t)) (Some budget)
                           net fs) = out.

(** Every instant of a batch: the scheduler moves by one iteration of the
    [while] of [next], or by one invocation settling and its callback
    running up to the call of [next].  The relation leaves open when these
    happen, so it covers every interleaving of the event loop. *)
Inductive step : Scheduler -> Scheduler -> Prop :=
| step_admission s :
    guard s = true -> step s (admit_next s)
| step_fulfilled s i t result s' :
    active s !! i = Some t ->
    possible_outcome t (Fulfilled result) ->
    check_complete (record_result (retire s i) result) = Fulfilled s' ->
    step s s'
| step_type_error s i t result e :
    active s !! i = Some t ->
    possible_outcome t (Fulfilled result) ->
    check_complete (record_result (retire s i) result) = Rejected e ->
    step s (record_result (retire s i) result)
| step_rejected s i t e :
    active s !! i = Some t ->
    possible_outcome t (Rejected e) ->
    step s (retire s i).

Definition reachable (s : Scheduler) : Prop := rtc step initial s.

(** What holds at every instant of a batch: [index] counts the invocations
    started, which are those of the files before [index], in order and
    numbered from 1; every invocation started has settled into [results],
    or counts in [running]; [resolve] has been called at most once, with
    the summary of all the results. *)
Record invariant (s : Scheduler) : Prop := {
  inv_index : index s = Z.of_nat (length (admitted s));
  inv_progress : progressIndex s = index s;
  inv_bound : index s <= total;
  inv_admitted : task_file <$> admitted s = take (length (admitted s)) files;
  inv_numbers :
    (fun t => progress_index (task_progress t)) <$> admitted s = seqZ 1 (index s);
  inv_active : Z.of_nat (length (active s)) <= running s;
  inv_running : running s <= Z.max 0 limit;
  inv_count : index s = Z.of_nat (length (results s)) + running s;
  inv_tasks :
    omap (fmap file) (results s) ++ (task_file <$> active s) ⊆+ task_file <$> admitted s;
  inv_resolved :
    resolved s = []
    \/ exists summary,
         resolved s = [summary] /\ summarise (results s) = Some summary
         /\ Z.of_nat (length (results s)) = total
}.

(** Strictly sequential processing: at most one invocation is pending, it
    is the one of the file that comes after those with a result, and the
    results are those of the files in input order. *)
Record sequential (s : Scheduler) : Prop := {
  seq_one : (length (active s) <= 1)%nat;
  seq_results :
    forall j r, results s !! j = Some (Some r) -> files !! j = Some (file r);
  seq_active :
    forall t, t ∈ active s -> files !! length (results s) = Some (task_file t)
}.

(** *** An executable batch *)

(** The storage, the scheduler, and what each settled invocation did. *)
Record World := {
  storage : Storage;
  scheduler : Scheduler;
  history : list (Task * list Event)
}.

(** The network of a batch: the exchange of each attempt of each
    invocation, the invocation given by its progress number. *)
Variable network : Z -> Z -> Exchange.

(** The invocation chosen by [pick] among the pending ones settles: it has
    run against the storage as it is now. *)
Definition settle_pick (w : World) (pick : nat) : World :=
  let s := scheduler w in
  let i := (pick mod length (active s))%nat in
  match active s !! i with
  | None => w
  | Some t =>
      let inv := compressImage (task_file t) apiKey (Some (task_progress t)) (Some budget)
                               (network (progress_index (task_progress t))) (storage w) in
      {| storage := inv_fs inv;
         scheduler := settle s i (inv_out inv);
         history := history w ++ [(t, inv_trace inv)] |}
  end.

(** [compressBatch(files, apiKey, maxConcurrency, retries)]: the first call
    of [next], then the invocations settle in the order of [schedule].  The
    promise returned is fulfilled with the first element of [resolved], if
    any. *)
Definition compressBatch (fs : Storage) (schedule : list nat) : World :=
  foldl settle_pick {| storage := fs; scheduler := next initial; history := [] |} schedule.

(** A batch in which no invocation has been rejected, between two
    callbacks: the loop of [next] has run to its end, every pending
    invocation counts in [running], every result is defined, every file of
    the batch can be read, and [resolve] has been called if all results are
    in. *)
Record healthy (w : World) : Prop := {
  h_reachable : reachable (scheduler w);
  h_guard : guard (scheduler w) = false;
  h_balanced : Z.of_nat (length (active (scheduler w))) = running (scheduler w);
  h_defined : Forall is_Some (results (scheduler w));
  h_files : forall f, f ∈ files -> is_Some (storage w !! f);
  h_resolved :
    Z.of_nat (length (results (scheduler w))) = total -> resolved (scheduler w) <> []
}.

(** A file of the batch that cannot be read stays so, and never has a
    result. *)
Record starved (f : string) (w : World) : Prop := {
  starved_reachable : reachable (scheduler w);
  starved_missing : storage w !! f = None;
  starved_results : forall r, Some r ∈ results (scheduler w) -> file r <> f
}.

(** ** Sample data *)

(** A storage with two files, of 3 and 2 bytes. *)
Definition sample_storage : Storage :=
  {[ "a.png" := [Byte.x89; Byte.x50; Byte.x4e]; "b.png" := [Byte.x89; Byte.x50] ]}.

(** A service whose error bodies are not JSON. *)
Definition no_payload (body : string) : option string := None.

(** A service that drops every upload. *)
Definition connection_reset (attempt : Z) : Exchange := RequestError "ECONNRESET".

(** A service that rejects the credential. *)
Definition unauthorized (attempt : Z) : Exchange :=
  ResponseEnd 401 None "Unauthorized" (DownloadError "unused").

(** A service that accepts every upload and returns one byte. *)
Definition shrinking (attempt : Z) : Exchange :=
  ResponseEnd 201 (Some "https://api.tinify.com/output/1") "{}" (DownloadEnd 200 [Byte.x89]).

(** Two outcomes: 1000 bytes compressed to 500, and 2000 bytes that
    failed. *)
Definition example_outcomes : list AttemptResult :=
  [ {| file := "a.png"; oldSize := 1000; newSize := 500; success := true;
       retryable := false; errorMsg := None |};
    {| file := "b.png"; oldSize := 2000; newSize := 2000; success := false;
       retryable := true; errorMsg := Some "HTTP 500" |} ].

(** * Properties *)

(** ** The transfer unit *)

Lemma statSync_size_Some fs path content :
  fs !! path = Some content -> statSync_size fs path = Some (Z.of_nat (length content)).
Proof. intros H. unfold statSync_size. by rewrite H. Qed.

Lemma statSync_size_None fs path :
  fs !! path = None -> statSync_size fs path = None.
Proof. intros H. unfold statSync_size. by rewrite H. Qed.

(** The write of [downloadCompressed] makes the file readable: the
    [statSync] that follows it does not throw. *)
Lemma downloadCompressed_end fs path old imgStatus imgData :
  downloadCompressed fs path old (DownloadEnd imgStatus imgData)
  = Fulfilled (<[path := imgData]> fs,
               {| file := path; oldSize := old; newSize := Z.of_nat (length imgData);
                  success := true; retryable := false; errorMsg := None |}).
Proof.
  unfold downloadCompressed, writeFileSync.
  by rewrite (statSync_size_Some _ _ imgData) by apply lookup_insert_eq.
Qed.

(** An attempt on a missing file is rejected, whatever the service does. *)
Lemma compressOnce_missing fs path key x :
  fs !! path = None -> compressOnce fs path key x = Rejected "ENOENT".
Proof. intros H. unfold compressOnce. by rewrite statSync_size_None. Qed.

(** The cases of an attempt on a file that is there. *)
Inductive attempt_case (fs : Storage) (path : string) (old : Z)
    : Exchange -> Storage -> AttemptResult -> Prop :=
| case_accepted statusCode location body imgStatus imgData :
    statusCode = 201 -> JS.truthy_string location = true ->
    attempt_case fs path old
      (ResponseEnd statusCode location body (DownloadEnd imgStatus imgData))
      (<[path := imgData]> fs)
      {| file := path; oldSize := old; newSize := Z.of_nat (length imgData);
         success := true; retryable := false; errorMsg := None |}
| case_download_error statusCode location body message :
    statusCode = 201 -> JS.truthy_string location = true ->
    attempt_case fs path old
      (ResponseEnd statusCode location body (DownloadError message)) fs
      {| file := path; oldSize := old; newSize := old;
         success := false; retryable := true; errorMsg := Some message |}
| case_refused statusCode location body download :
    (statusCode =? 201) && JS.truthy_string location = false ->
    attempt_case fs path old
      (ResponseEnd statusCode location body download) fs
      {| file := path; oldSize := old; newSize := old; success := false;
         retryable := negb (NON_RETRYABLE_STATUS_has statusCode);
         errorMsg := Some (default ("HTTP " +:+ pretty statusCode) (JSON_parse_error body)) |}
| case_request_error message :
    attempt_case fs path old (RequestError message) fs
      {| file := path; oldSize := old; newSize := old;
         success := false; retryable := true; errorMsg := Some message |}.

Lemma compressOnce_cases fs path key x content :
  fs !! path = Some content ->
  exists fs' r,
    compressOnce fs path key x = Fulfilled (fs', r)
    /\ attempt_case fs path (Z.of_nat (length content)) x fs' r.
Proof.
  intros Hfile. unfold compressOnce, readFileSync.
  rewrite (statSync_size_Some _ _ _ Hfile), Hfile.
  destruct x as [message | statusCode location body download].
  - eexists _, _. split; [reflexivity | constructor].
  - destruct ((statusCode =? 201) && JS.truthy_string location) eqn:Hacc.
    + apply andb_true_iff in Hacc as [Hs Hl]. apply Z.eqb_eq in Hs.
      destruct download as [imgStatus imgData | message].
      * rewrite downloadCompressed_end. eexists _, _.
        split; [reflexivity | by constructor].
      * eexists _, _. split; [reflexivity | by constructor].
    + eexists _, _. split; [reflexivity | by constructor].
Qed.

Lemma compressOnce_inv fs path key x fs' r :
  compressOnce fs path key x = Fulfilled (fs', r) ->
  exists content,
    fs !! path = Some content /\ attempt_case fs path (Z.of_nat (length content)) x fs' r.
Proof.
  intros H. destruct (fs !! path) as [content|] eqn:Hfile.
  - destruct (compressOnce_cases fs path key x content Hfile) as (fs1 & r1 & E & C).
    rewrite E in H. injection H as <- <-. eauto.
  - by rewrite compressOnce_missing in H.
Qed.

Lemma attempt_case_file fs path old x fs' r :
  attempt_case fs path old x fs' r -> file r = path /\ oldSize r = old.
Proof. by destruct 1. Qed.

Lemma attempt_case_failed fs path old x fs' r :
  attempt_case fs path old x fs' r -> success r = false ->
  fs' = fs /\ failed_attempt r.
Proof. destruct 1; intros Hs; try discriminate; by repeat split; eauto. Qed.

Lemma attempt_case_success fs path old x fs' r :
  attempt_case fs path old x fs' r -> success r = true ->
  exists statusCode location body imgStatus imgData,
    x = ResponseEnd statusCode location body (DownloadEnd imgStatus imgData)
    /\ statusCode = 201 /\ JS.truthy_string location = true
    /\ fs' = <[path := imgData]> fs /\ newSize r = Z.of_nat (length imgData).
Proof.
  destruct 1; intros Hs; try discriminate.
  eexists _, _, _, _, _. eauto.
Qed.

Lemma attempt_case_keeps_file fs path old x fs' r f :
  attempt_case fs path old x fs' r -> is_Some (fs !! f) -> is_Some (fs' !! f).
Proof.
  destruct 1; try done. intros Hf.
  destruct (decide (path = f)) as [->|Hne].
  - rewrite lookup_insert_eq. eauto.
  - by rewrite lookup_insert_ne.
Qed.

Lemma NON_RETRYABLE_STATUS_has_spec statusCode :
  NON_RETRYABLE_STATUS_has statusCode = true <-> statusCode = 401 \/ statusCode = 415.
Proof.
  unfold NON_RETRYABLE_STATUS_has, NON_RETRYABLE_STATUS.
  rewrite bool_decide_eq_true, !elem_of_cons, elem_of_nil.
  split; [intros [?|[?|[]]]; auto | intros [?|?]; auto].
Qed.

(** ** The retrying attempt controller *)

Lemma timeline_retry a line trace :
  timeline (Attempt a :: Log line :: Sleep (a * 1000) :: trace)
  = Attempt a :: Sleep (a * 1000) :: timeline trace.
Proof. reflexivity. Qed.

Lemma attempts_made_retry a line ms trace :
  attempts_made (Attempt a :: Log line :: Sleep ms :: trace) = a :: attempts_made trace.
Proof. reflexivity. Qed.

(** The loop stops at a success, and at a failure that is not retryable. *)
Lemma attempts_success path key progress M net a todo result0 fs fs1 r :
  compressOnce fs path key (net a) = Fulfilled (fs1, r) ->
  success r = true ->
  attempts path key progress M net (a :: todo) result0 fs
  = {| inv_fs := fs1;
       inv_trace := [Attempt a;
                     Log (Compressed progress path (oldSize r - newSize r)
                            (savedPercent (oldSize r) (newSize r)))];
       inv_out := Fulfilled (Some r) |}.
Proof. intros E Hs. simpl. by rewrite E, Hs. Qed.

Lemma attempts_final path key progress M net a todo result0 fs fs1 r :
  compressOnce fs path key (net a) = Fulfilled (fs1, r) ->
  success r = false ->
  negb (retryable r) || (a =? M) = true ->
  attempts path key progress M net (a :: todo) result0 fs
  = {| inv_fs := fs1;
       inv_trace := [Attempt a; Log (Failed progress path (errorMsg r))];
       inv_out := Fulfilled (Some r) |}.
Proof. intros E Hs Hstop. simpl. by rewrite E, Hs, Hstop. Qed.

Lemma attempts_retry path key progress M net a todo result0 fs fs1 r :
  compressOnce fs path key (net a) = Fulfilled (fs1, r) ->
  success r = false ->
  negb (retryable r) || (a =? M) = false ->
  attempts path key progress M net (a :: todo) result0 fs
  = let rest := attempts path key progress M net todo (Some r) fs1 in
    {| inv_fs := inv_fs rest;
       inv_trace := [Attempt a; Log (Retrying progress a M path (errorMsg r) a);
                     Sleep (a * 1000)] ++ inv_trace rest;
       inv_out := inv_out rest |}.
Proof. intros E Hs Hstop. simpl. by rewrite E, Hs, Hstop. Qed.

Lemma attempts_rejected path key progress M net a todo result0 fs e :
  compressOnce fs path key (net a) = Rejected e ->
  attempts path key progress M net (a :: todo) result0 fs
  = {| inv_fs := fs; inv_trace := [Attempt a]; inv_out := Rejected e |}.
Proof. intros E. simpl. by rewrite E. Qed.

(** What the loop returns.  Either the last attempt was accepted and the
    file now holds the bytes downloaded in that attempt, or the result is a
    failure and the storage is as it was. *)
Inductive outcome_case (path : string) (net : Z -> Exchange) (fs : Storage)
    (inv : Invocation) (r : AttemptResult) : Prop :=
| outcome_compressed a statusCode location body imgStatus imgData :
    success r = true ->
    last (attempts_made (inv_trace inv)) = Some a ->
    net a = ResponseEnd statusCode location body (DownloadEnd imgStatus imgData) ->
    statusCode = 201 -> JS.truthy_string location = true ->
    inv_fs inv = <[path := imgData]> fs ->
    newSize r = Z.of_nat (length imgData) ->
    outcome_case path net fs inv r
| outcome_failed :
    failed_attempt r ->
    inv_fs inv = fs ->
    outcome_case path net fs inv r.

Lemma attempts_inv path key progress M net todo result0 fs r :
  (forall r0, result0 = Some r0 -> file r0 = path /\ failed_attempt r0) ->
  inv_out (attempts path key progress M net todo result0 fs) = Fulfilled (Some r) ->
  file r = path
  /\ outcome_case path net fs (attempts path key progress M net todo result0 fs) r.
Proof.
  revert result0 fs. induction todo as [|a todo IH]; intros result0 fs Hprev Hout.
  - simpl in *. injection Hout as ->. destruct (Hprev r eq_refl) as [Hf Hfail].
    split; [done|]. by apply outcome_failed.
  - destruct (compressOnce fs path key (net a)) as [[fs1 r1]|e] eqn:E.
    2:{ rewrite (attempts_rejected _ _ _ _ _ _ _ _ _ _ E) in Hout. discriminate. }
    destruct (compressOnce_inv _ _ _ _ _ _ E) as (content & Hfile & Hcase).
    destruct (attempt_case_file _ _ _ _ _ _ Hcase) as [Hpath _].
    destruct (success r1) eqn:Hs.
    + rewrite (attempts_success _ _ _ _ _ _ _ _ _ _ _ E Hs) in *.
      simpl in Hout. injection Hout as ->. split; [done|].
      destruct (attempt_case_success _ _ _ _ _ _ Hcase Hs)
        as (statusCode & location & body & imgStatus & imgData & Hx & ? & ? & ? & ?).
      by eapply outcome_compressed.
    + destruct (attempt_case_failed _ _ _ _ _ _ Hcase Hs) as [-> Hfail].
      destruct (negb (retryable r1) || (a =? M)) eqn:Hstop.
      * rewrite (attempts_final _ _ _ _ _ _ _ _ _ _ _ E Hs Hstop) in *.
        simpl in Hout. injection Hout as ->. split; [done|]. by apply outcome_failed.
      * rewrite (attempts_retry _ _ _ _ _ _ _ _ _ _ _ E Hs Hstop) in *.
        cbv zeta in *. simpl inv_out in Hout.
        destruct (IH (Some r1) fs) as [Hfr Hcase']; [|done|].
        { intros r0 [= <-]. done. }
        split; [done|].
        destruct Hcase' as [a' statusCode location body imgStatus imgData
                              Hs' Hlast Hnet ? ? Hfs Hnew
                           | Hfail' Hfs].
        -- eapply outcome_compressed; try done.
           simpl inv_trace. rewrite attempts_made_retry.
           destruct (attempts_made _) as [|? ?]; [done|]. by rewrite last_cons_cons.
        -- by apply outcome_failed.
Qed.

(** The loop never rejects when the file can be read. *)
Lemma attempts_fulfilled path key progress M net todo result0 fs :
  is_Some (fs !! path) ->
  exists result,
    inv_out (attempts path key progress M net todo result0 fs) = Fulfilled result
    /\ (todo <> [] -> is_Some result)
    /\ forall f, is_Some (fs !! f) ->
         is_Some (inv_fs (attempts path key progress M net todo result0 fs) !! f).
Proof.
  revert result0 fs. induction todo as [|a todo IH]; intros result0 fs [content Hfile].
  - simpl. exists result0. by repeat split.
  - destruct (compressOnce_cases fs path key (net a) content Hfile) as (fs1 & r & E & Hcase).
    destruct (success r) eqn:Hs.
    + rewrite (attempts_success _ _ _ _ _ _ _ _ _ _ _ E Hs). simpl.
      eexists. split; [done|]. split; [eauto|].
      intros f. by eapply attempt_case_keeps_file.
    + destruct (negb (retryable r) || (a =? M)) eqn:Hstop.
      * rewrite (attempts_final _ _ _ _ _ _ _ _ _ _ _ E Hs Hstop). simpl.
        eexists. split; [done|]. split; [eauto|].
        intros f. by eapply attempt_case_keeps_file.
      * rewrite (attempts_retry _ _ _ _ _ _ _ _ _ _ _ E Hs Hstop). cbv zeta. simpl.
        destruct (attempt_case_failed _ _ _ _ _ _ Hcase Hs) as [-> _].
        destruct (IH (Some r) fs) as (result & Hout & Hsome & Hkeep); [eauto|].
        exists result. split; [done|]. split; [|done].
        intros _. destruct todo as [|a' todo'].
        -- simpl in Hout. injection Hout as <-. eauto.
        -- by apply Hsome.
Qed.

(** When every attempt fails with a retryable error, the loop goes through
    all of its attempts, waits after each but the last, and returns the
    result of the last one. *)
Lemma attempts_all_retryable path key progress M net fs todo result0 :
  (forall a, a ∈ todo ++ [M] -> exists r,
      compressOnce fs path key (net a) = Fulfilled (fs, r)
      /\ success r = false /\ retryable r = true) ->
  M ∉ todo ->
  exists r,
    compressOnce fs path key (net M) = Fulfilled (fs, r)
    /\ inv_out (attempts path key progress M net (todo ++ [M]) result0 fs) = Fulfilled (Some r)
    /\ inv_fs (attempts path key progress M net (todo ++ [M]) result0 fs) = fs
    /\ timeline (inv_trace (attempts path key progress M net (todo ++ [M]) result0 fs))
       = (todo ≫= fun a => [Attempt a; Sleep (a * 1000)]) ++ [Attempt M].
Proof.
  revert result0. induction todo as [|a todo IH]; intros result0 Hall Hlast.
  - destruct (Hall M) as (r & E & Hs & Hr); [apply list_elem_of_here|].
    exists r. split; [done|]. simpl app.
    rewrite (attempts_final _ _ _ _ _ _ _ _ _ _ _ E Hs).
    + done.
    + rewrite Z.eqb_refl. apply orb_true_r.
  - apply not_elem_of_cons in Hlast as [Hne Hlast].
    destruct (Hall a) as (r & E & Hs & Hr); [apply list_elem_of_here|].
    destruct (IH (Some r)) as (rM & EM & Hout & Hfs & Htl); [|done|].
    { intros a' Ha'. apply Hall. by apply list_elem_of_further. }
    exists rM. split; [done|].
    rewrite <- app_comm_cons.
    rewrite (attempts_retry _ _ _ _ _ _ _ _ _ _ _ E Hs).
    + cbv zeta. simpl inv_out. simpl inv_fs. simpl inv_trace.
      rewrite timeline_retry, Htl. done.
    + rewrite Hr. simpl. apply Z.eqb_neq. congruence.
Qed.

(** What [compressImage] settles with for a task of a batch. *)
Lemma compressImage_file path key progress tries net fs r :
  inv_out (compressImage path key progress tries net fs) = Fulfilled (Some r) ->
  file r = path.
Proof.
  intros H. unfold compressImage in H.
  apply attempts_inv in H as [Hfile _]; [done|]. intros r0 [=].
Qed.

(** ** The aggregator *)

Lemma foldl_sum (f : AttemptResult -> Z) rs acc :
  foldl (fun sum r => sum + f r) acc rs = acc + sumZ (f <$> rs).
Proof.
  revert acc. induction rs as [|r rs IH]; intros acc; simpl.
  - unfold sumZ. simpl. lia.
  - rewrite IH. symmetry. apply Z.add_assoc.
Qed.

Lemma sumZ_Permutation l1 l2 : l1 ≡ₚ l2 -> sumZ l1 = sumZ l2.
Proof. unfold sumZ. induction 1; simpl; lia. Qed.

Lemma mapM_id_Some (rs : list AttemptResult) : mapM id (Some <$> rs) = Some rs.
Proof. by apply mapM_fmap_Some. Qed.

Lemma mapM_id_inv (results : list (option AttemptResult)) rs :
  mapM id results = Some rs -> results = Some <$> rs.
Proof.
  intros H. symmetry. eapply mapM_fmap_Some_inv; [exact H|].
  intros x y Hx. exact (eq_sym Hx).
Qed.

Lemma summarise_Some rs :
  summarise (Some <$> rs)
  = Some {| totalOldSize := sumZ (oldSize <$> rs);
            totalNewSize := sumZ (newSize <$> rs);
            failCount := Z.of_nat (length (filter (fun r => negb (success r)) rs));
            summary_results := rs |}.
Proof.
  unfold summarise. rewrite mapM_id_Some. simpl.
  by rewrite !foldl_sum, !Z.add_0_l.
Qed.

Lemma summarise_inv results summary :
  summarise results = Some summary ->
  results = Some <$> summary_results summary
  /\ totalOldSize summary = sumZ (oldSize <$> summary_results summary)
  /\ totalNewSize summary = sumZ (newSize <$> summary_results summary)
  /\ failCount summary
     = Z.of_nat (length (filter (fun r => negb (success r)) (summary_results summary))).
Proof.
  unfold summarise. destruct (mapM id results) as [rs|] eqn:E; [|done].
  simpl. intros [= <-]. simpl. rewrite !foldl_sum, !Z.add_0_l.
  by rewrite (mapM_id_inv _ _ E).
Qed.

Lemma summarise_defined results :
  Forall is_Some results -> is_Some (summarise results).
Proof.
  intros H. unfold summarise.
  destruct (mapM id results) as [rs|] eqn:E; [by eexists|].
  apply mapM_None in E. apply Exists_exists in E as (x & Hx & Hnone).
  rewrite Forall_forall in H. destruct (H x Hx) as [y ->]. done.
Qed.

(** The totals do not depend on the order in which the outcomes arrived. *)
Lemma summarise_Permutation rs1 rs2 s1 s2 :
  rs1 ≡ₚ rs2 ->
  summarise (Some <$> rs1) = Some s1 -> summarise (Some <$> rs2) = Some s2 ->
  totalOldSize s1 = totalOldSize s2 /\ totalNewSize s1 = totalNewSize s2
  /\ failCount s1 = failCount s2.
Proof.
  intros Hp. rewrite !summarise_Some. intros [= <-] [= <-]. simpl.
  repeat split.
  - apply sumZ_Permutation. by rewrite Hp.
  - apply sumZ_Permutation. by rewrite Hp.
  - by rewrite Hp.
Qed.

(** ** The bounded scheduler *)

Lemma guard_true s :
  guard s = true <-> running s < limit /\ index s < Z.of_nat (length files).
Proof. unfold guard. rewrite andb_true_iff, !Z.ltb_lt. done. Qed.

Lemma guard_false s :
  guard s = false <-> limit <= running s \/ Z.of_nat (length files) <= index s.
Proof. unfold guard. rewrite andb_false_iff, !Z.ltb_ge. done. Qed.

Lemma invariant_initial : invariant initial.
Proof.
  split; simpl; try done; try (unfold total; lia).
  by left.
Qed.

Lemma seqZ_snoc n : 0 <= n -> seqZ 1 (n + 1) = seqZ 1 n ++ [n + 1].
Proof.
  intros Hn. rewrite seqZ_app by lia.
  rewrite (seqZ_cons _ 1), (seqZ_nil _ (Z.pred 1)) by lia.
  by rewrite (Z.add_comm 1 n).
Qed.

Lemma invariant_admission s : invariant s -> guard s = true -> invariant (admit_next s).
Proof.
  intros [] [Hrun Hidx]%guard_true.
  assert (Z.to_nat (index s) = length (admitted s)) as Hpos by lia.
  destruct (lookup_lt_is_Some_2 files (length (admitted s))) as [f Hf]; [lia|].
  unfold admit_next. rewrite Hpos, Hf. split; simpl.
  - rewrite length_app. simpl. lia.
  - lia.
  - unfold total. lia.
  - rewrite fmap_app, length_app. simpl.
    rewrite Nat.add_1_r, (take_S_r _ _ _ Hf). by f_equal.
  - rewrite fmap_app. simpl. rewrite seqZ_snoc by lia. f_equal; [done|].
    f_equal. lia.
  - rewrite length_app. simpl. lia.
  - lia.
  - lia.
  - rewrite !fmap_app, app_assoc. by apply submseteq_skips_r.
  - done.
Qed.

(** Once [resolve] has been called nothing is pending. *)
Lemma invariant_resolved_idle s :
  invariant s -> resolved s <> [] -> active s = [] /\ running s = 0 /\ index s = total.
Proof.
  intros [] Hres. destruct inv_resolved0 as [?|(summary & _ & _ & Hlen)]; [done|].
  assert (running s = 0) by lia.
  repeat split; [|done|lia].
  destruct (active s); [done|simpl in *; lia].
Qed.

Lemma invariant_retire s i t :
  invariant s -> active s !! i = Some t -> invariant (retire s i).
Proof.
  intros [] Hi. split; simpl; try done.
  - rewrite length_delete by eauto. lia.
  - etrans; [|done]. apply submseteq_skips_l, sublist_submseteq.
    rewrite list_fmap_delete. apply sublist_delete.
Qed.

Lemma invariant_record s i t result :
  invariant s -> active s !! i = Some t ->
  (forall r, result = Some r -> file r = task_file t) ->
  invariant (record_result (retire s i) result) /\ resolved s = [].
Proof.
  intros Hinv Hi Hfile.
  assert (resolved s = []) as Hnone.
  { destruct (resolved s) eqn:E; [done|].
    destruct (invariant_resolved_idle s Hinv) as [Hact _]; [by rewrite E|].
    by rewrite Hact in Hi. }
  split; [|done]. destruct Hinv.
  assert (i < length (active s))%nat by (by eapply lookup_lt_Some).
  split; simpl; try done.
  - rewrite length_delete by eauto. lia.
  - lia.
  - rewrite length_app. simpl. lia.
  - etrans; [|done]. rewrite omap_app, <- app_assoc. apply submseteq_skips_l.
    rewrite list_fmap_delete.
    assert ((task_file <$> active s) !! i = Some (task_file t)) as Hi'.
    { by rewrite list_lookup_fmap, Hi. }
    rewrite (delete_Permutation _ _ _ Hi') at 2.
    destruct result as [r|]; simpl.
    + by rewrite (Hfile r eq_refl).
    + by apply submseteq_cons.
  - by left.
Qed.

Lemma invariant_check s s' :
  invariant s -> resolved s = [] -> check_complete s = Fulfilled s' -> invariant s'.
Proof.
  intros Hinv Hnone. unfold check_complete.
  destruct (Z.of_nat (length (results s)) =? total) eqn:Hlen; [|by intros [= <-]].
  destruct (summarise (results s)) as [summary|] eqn:Hsum; [|done].
  intros [= <-]. apply Z.eqb_eq in Hlen. destruct Hinv. split; simpl; try done.
  right. exists summary. by rewrite Hnone.
Qed.

Lemma possible_outcome_file t r :
  possible_outcome t (Fulfilled (Some r)) -> file r = task_file t.
Proof. intros (net & fs & H). by eapply compressImage_file. Qed.

Lemma invariant_step s s' : invariant s -> step s s' -> invariant s'.
Proof.
  intros Hinv Hstep. destruct Hstep as [s Hg | s i t result s' Hi Hout Hc
                                       | s i t result e Hi Hout Hc | s i t e Hi Hout].
  - by apply invariant_admission.
  - destruct (invariant_record s i t result Hinv Hi) as [Hinv' Hnone].
    { intros r ->. by apply possible_outcome_file. }
    by eapply invariant_check.
  - eapply invariant_record; [done..|].
    intros r ->. by apply possible_outcome_file.
  - by eapply invariant_retire.
Qed.

Lemma reachable_invariant s : reachable s -> invariant s.
Proof.
  intros H. apply (rtc_ind_r (R := step) (fun s => invariant s) initial); [| |exact H].
  - apply invariant_initial.
  - intros y z _ Hstep IH. by eapply invariant_step.
Qed.

(** *** The loop of [next] *)

Lemma next_loop_reachable fuel s : reachable s -> reachable (next_loop fuel s).
Proof.
  revert s. induction fuel as [|fuel IH]; intros s H; simpl; [done|].
  destruct (guard s) eqn:Hg; [|done].
  apply IH. eapply rtc_r; [exact H|]. by constructor.
Qed.

(** The fuel given by [next] is enough: the loop ends by its condition. *)
Lemma next_loop_guard fuel s :
  total - index s <= Z.of_nat fuel -> guard (next_loop fuel s) = false.
Proof.
  revert s. induction fuel as [|fuel IH]; intros s H; simpl.
  - apply guard_false. right. unfold total in H. lia.
  - destruct (guard s) eqn:Hg; [|done]. apply IH. simpl. lia.
Qed.

Lemma next_guard s : guard (next s) = false.
Proof. apply next_loop_guard. lia. Qed.

Lemma next_loop_results fuel s :
  results (next_loop fuel s) = results s /\ resolved (next_loop fuel s) = resolved s.
Proof.
  revert s. induction fuel as [|fuel IH]; intros s; simpl; [done|].
  destruct (guard s); [|done]. by destruct (IH (admit_next s)).
Qed.

Lemma next_results s : results (next s) = results s.
Proof. apply next_loop_results. Qed.

Lemma next_resolved s : resolved (next s) = resolved s.
Proof. apply next_loop_results. Qed.

Lemma next_loop_balanced fuel s :
  Z.of_nat (length (active s)) = running s ->
  Z.of_nat (length (active (next_loop fuel s))) = running (next_loop fuel s).
Proof.
  revert s. induction fuel as [|fuel IH]; intros s H; simpl; [done|].
  destruct (guard s); [|done]. apply IH. simpl. rewrite length_app. simpl. lia.
Qed.

(** When the limit leaves room for every file not yet started, [next]
    starts them all. *)
Lemma next_loop_all fuel s :
  Z.of_nat fuel = total - index s -> 0 <= index s ->
  running s + (total - index s) <= limit ->
  index (next_loop fuel s) = total
  /\ running (next_loop fuel s) = running s + (total - index s)
  /\ task_file <$> active (next_loop fuel s)
     = (task_file <$> active s) ++ drop (Z.to_nat (index s)) files.
Proof.
  revert s. induction fuel as [|fuel IH]; intros s Hfuel Hidx Hroom; simpl.
  - repeat split; [lia..|].
    rewrite drop_ge, app_nil_r; [done|]. unfold total in Hfuel. lia.
  - assert (guard s = true) as ->.
    { apply guard_true. unfold total in *. lia. }
    destruct (IH (admit_next s)) as (Hi & Hr & Ha); simpl; [lia..|].
    repeat split; [done|simpl in Hr; lia|].
    rewrite Ha. simpl. rewrite fmap_app, <- app_assoc. f_equal. simpl.
    destruct (lookup_lt_is_Some_2 files (Z.to_nat (index s))) as [f Hf].
    { unfold total in *. lia. }
    rewrite Hf. simpl. rewrite (drop_S _ _ _ Hf). do 2 f_equal. lia.
Qed.

(** *** Settling *)

Lemma settle_reachable s i t out :
  reachable s -> active s !! i = Some t -> possible_outcome t out ->
  reachable (settle s i out).
Proof.
  intros Hs Hi Hout. destruct out as [result|e]; simpl.
  - unfold callback.
    destruct (check_complete (record_result (retire s i) result)) as [s2|e] eqn:Hc.
    + apply next_loop_reachable. eapply rtc_r; [exact Hs|].
      by eapply step_fulfilled.
    + eapply rtc_r; [exact Hs|]. by eapply step_type_error.
  - eapply rtc_r; [exact Hs|]. by eapply step_rejected.
Qed.

Lemma settle_pick_reachable w pick :
  reachable (scheduler w) -> reachable (scheduler (settle_pick w pick)).
Proof.
  intros H. unfold settle_pick.
  destruct (active (scheduler w) !! _) as [t|] eqn:Hi; [|done]. simpl.
  eapply settle_reachable; [done..|]. by eexists _, _.
Qed.

Lemma run_reachable schedule w :
  reachable (scheduler w) -> reachable (scheduler (foldl settle_pick w schedule)).
Proof.
  revert w. induction schedule as [|pick schedule IH]; intros w H; simpl; [done|].
  by apply IH, settle_pick_reachable.
Qed.

(** Every state of an executable batch is an instant of the batch. *)
Lemma compressBatch_reachable fs schedule :
  reachable (scheduler (compressBatch fs schedule)).
Proof.
  apply run_reachable. simpl. apply next_loop_reachable. apply rtc_refl.
Qed.

(** Every invocation of a batch ran [compressImage] with the budget of the
    batch. *)
Lemma run_history schedule w t trace :
  (t, trace) ∈ history (foldl settle_pick w schedule) ->
  (t, trace) ∈ history w
  \/ exists fs,
      trace = inv_trace (compressImage (task_file t) apiKey (Some (task_progress t))
                           (Some budget) (network (progress_index (task_progress t))) fs).
Proof.
  revert w. induction schedule as [|pick schedule IH]; intros w H; simpl in H; [by left|].
  destruct (IH _ H) as [Hin|?]; [|by right].
  unfold settle_pick in Hin.
  destruct (active (scheduler w) !! _) as [t'|]; [|by left].
  simpl in Hin. apply elem_of_app in Hin as [?|Hin]; [by left|].
  apply list_elem_of_singleton in Hin as [= -> ->]. right. by eexists.
Qed.

(** *** One invocation at a time *)

Lemma reachable_sequential s : limit = 1 -> reachable s -> sequential s.
Proof.
  intros Hone H.
  apply (rtc_ind_r (R := step) (fun s => sequential s) initial); [| |exact H].
  { split; simpl; [lia|done|]. intros t Ht. by apply elem_of_nil in Ht. }
  clear s H. intros s s' Hreach Hstep [Hlen Hres Hact].
  pose proof (reachable_invariant s Hreach) as Hinv.
  assert (forall i t, active s !! i = Some t -> active s = [t] /\ delete i (active s) = [])
    as Hsingle.
  { intros i t Hi. destruct (active s) as [|t0 [|t1 l]]; simpl in *; [done| |lia].
    destruct i; simpl in Hi; [|done]. by injection Hi as ->. }
  assert (forall i t result,
    active s !! i = Some t -> possible_outcome t (Fulfilled result) ->
    sequential (record_result (retire s i) result)) as Hrecord.
  { intros i t result Hi Hout. destruct (Hsingle i t Hi) as [Hs Hd].
    split; simpl.
    - rewrite Hd. simpl. lia.
    - intros j r [[_ Hj]|[-> Hj]]%lookup_snoc_Some; [by apply Hres|].
      subst result. rewrite (possible_outcome_file t r Hout).
      apply Hact. rewrite Hs. apply list_elem_of_here.
    - rewrite Hd. intros t' Ht'. by apply elem_of_nil in Ht'. }
  destruct Hstep as [s Hg | s i t result s' Hi Hout Hc
                    | s i t result e Hi Hout Hc | s i t e Hi Hout].
  - apply guard_true in Hg as [Hrun Hidx]. destruct Hinv.
    assert (running s = 0) by lia.
    assert (active s = []) as Hempty.
    { destruct (active s); [done|simpl in *; lia]. }
    destruct (lookup_lt_is_Some_2 files (Z.to_nat (index s))) as [f Hf]; [lia|].
    split; simpl.
    + rewrite Hempty. simpl. lia.
    + done.
    + rewrite Hempty, Hf. simpl. intros t ->%list_elem_of_singleton. simpl.
      rewrite <- Hf. f_equal. lia.
  - specialize (Hrecord i t result Hi Hout). revert Hc. unfold check_complete.
    destruct (_ =? _); [|by intros [= <-]].
    destruct (summarise _); [|done]. intros [= <-].
    destruct Hrecord. by split.
  - by eapply Hrecord.
  - destruct (Hsingle i t Hi) as [Hs Hd]. split; simpl.
    + rewrite Hd. simpl. lia.
    + done.
    + rewrite Hd. intros t' Ht'. by apply elem_of_nil in Ht'.
Qed.

(** *** Progress: a batch whose invocations are all fulfilled *)

Lemma active_file_in_files s t : invariant s -> t ∈ active s -> task_file t ∈ files.
Proof.
  intros [] Ht.
  assert (task_file t ∈ task_file <$> admitted s) as Hin.
  { eapply elem_of_submseteq; [|exact inv_tasks0].
    apply elem_of_app. right. by apply list_elem_of_fmap_2. }
  rewrite inv_admitted0 in Hin. apply elem_of_take in Hin as (i & Hi & _).
  by eapply list_elem_of_lookup_2.
Qed.

Lemma maxAttempts_of_budget : 0 <= budget -> seqZ 1 (maxAttempts_of (Some budget)) <> [].
Proof.
  intros Hb. unfold maxAttempts_of, JS.or_number.
  destruct (budget =? 0) eqn:E.
  - done.
  - rewrite seqZ_cons by lia. done.
Qed.

Lemma healthy_initial fs :
  files <> [] -> (forall f, f ∈ files -> is_Some (fs !! f)) ->
  healthy {| storage := fs; scheduler := next initial; history := [] |}.
Proof.
  intros Hne Hfs. split; cbn [storage scheduler].
  - apply next_loop_reachable, rtc_refl.
  - apply next_guard.
  - by apply next_loop_balanced.
  - rewrite next_results. constructor.
  - done.
  - rewrite next_results. simpl. unfold total. destruct files; [done|simpl; lia].
Qed.

(** No deadlock: while a result is missing, an invocation is pending. *)
Lemma healthy_pending w :
  1 <= limit -> healthy w ->
  Z.of_nat (length (results (scheduler w))) < total ->
  active (scheduler w) <> [].
Proof.
  intros Hk [Hr Hg Hb _ _ _] Hlt Hnil.
  pose proof (reachable_invariant _ Hr) as [].
  rewrite Hnil in Hb. simpl in Hb.
  apply guard_false in Hg. unfold total in *. lia.
Qed.

(** Once all results are in, nothing is pending: nothing more happens. *)
Lemma healthy_idle w pick :
  healthy w -> Z.of_nat (length (results (scheduler w))) = total ->
  settle_pick w pick = w.
Proof.
  intros [Hr _ _ _ _ Hres] Hlen.
  destruct (invariant_resolved_idle _ (reachable_invariant _ Hr) (Hres Hlen)) as [Ha _].
  unfold settle_pick. by rewrite Ha.
Qed.

(** One more invocation settles: one more result. *)
Lemma healthy_settle w pick :
  0 <= budget -> healthy w -> active (scheduler w) <> [] ->
  healthy (settle_pick w pick)
  /\ length (results (scheduler (settle_pick w pick)))
     = S (length (results (scheduler w))).
Proof.
  intros Hbudget [Hr Hg Hb Hd Hf Hres] Hne.
  pose proof (reachable_invariant _ Hr) as Hinv.
  pose proof (settle_pick_reachable w pick Hr) as Hr'.
  revert Hr'. unfold settle_pick.
  set (s := scheduler w) in *. set (i := (pick mod length (active s))%nat).
  destruct (lookup_lt_is_Some_2 (active s) i) as [t Hi].
  { apply Nat.mod_upper_bound. by destruct (active s). }
  rewrite Hi. simpl.
  assert (task_file t ∈ files) as Hin.
  { eapply active_file_in_files; [done|]. by eapply list_elem_of_lookup_2. }
  unfold compressImage.
  destruct (attempts_fulfilled (task_file t) apiKey (Some (task_progress t))
              (maxAttempts_of (Some budget))
              (network (progress_index (task_progress t)))
              (seqZ 1 (maxAttempts_of (Some budget))) None (storage w) (Hf _ Hin))
    as (result & -> & Hsome & Hkeep).
  destruct (Hsome (maxAttempts_of_budget Hbudget)) as [r ->].
  simpl. unfold callback.
  set (s1 := record_result (retire s i) (Some r)).
  assert (Forall is_Some (results s1)) as Hd1.
  { simpl. apply Forall_app. split; [done|]. by repeat constructor. }
  assert (Z.of_nat (length (active s1)) = running s1) as Hb1.
  { simpl. rewrite length_delete by eauto.
    assert (i < length (active s))%nat by (by eapply lookup_lt_Some). lia. }
  assert (length (results s1) = S (length (results s))) as Hl1.
  { simpl. rewrite length_app. simpl. lia. }
  assert (exists s2, check_complete s1 = Fulfilled s2
                     /\ results s2 = results s1 /\ active s2 = active s1
                     /\ running s2 = running s1
                     /\ (Z.of_nat (length (results s1)) = total -> resolved s2 <> []))
    as (s2 & -> & Hres2 & Hact2 & Hrun2 & Hdone2).
  { unfold check_complete. destruct (_ =? _) eqn:E.
    - destruct (summarise_defined _ Hd1) as [summary ->].
      eexists. split; [done|]. simpl. repeat split; try done.
      intros _. by destruct (resolved s).
    - eexists. split; [done|]. repeat split; try done.
      apply Z.eqb_neq in E. done. }
  intros Hr'.
  split; [split|]; cbn [storage scheduler].
  - done.
  - apply next_guard.
  - apply next_loop_balanced. by rewrite Hact2, Hrun2.
  - by rewrite next_results, Hres2.
  - intros f Hfin. apply Hkeep. by apply Hf.
  - rewrite next_results, next_resolved, Hres2. done.
  - by rewrite next_results, Hres2.
Qed.

(** Whatever the order in which the invocations settle, once enough of
    them have, all results are in. *)
Lemma healthy_run schedule w :
  1 <= limit -> 0 <= budget -> healthy w ->
  (length files <= length (results (scheduler w)) + length schedule)%nat ->
  healthy (foldl settle_pick w schedule)
  /\ length (results (scheduler (foldl settle_pick w schedule))) = length files.
Proof.
  intros Hk Hbudget. revert w.
  induction schedule as [|pick schedule IH]; intros w Hw Hlen; simpl.
  - split; [done|]. simpl in Hlen.
    destruct Hw as [Hr _ _ _ _ _]. pose proof (reachable_invariant _ Hr) as [].
    assert (0 <= running (scheduler w)) by lia. unfold total in *. lia.
  - destruct (decide (length (results (scheduler w)) = length files)) as [Hall|Hmissing].
    + rewrite healthy_idle; [|done|unfold total; lia].
      apply IH; [done|lia].
    + assert (Z.of_nat (length (results (scheduler w))) < total) as Hlt.
      { destruct Hw as [Hr _ _ _ _ _]. pose proof (reachable_invariant _ Hr) as [].
        assert (0 <= running (scheduler w)) by lia. unfold total in *. lia. }
      destruct (healthy_settle w pick Hbudget Hw) as [Hw' Hl'].
      { by apply healthy_pending. }
      apply IH; [done|]. simpl in Hlen. lia.
Qed.

(** *** What [resolve] is called with *)

Lemma omap_file_Some (rs : list AttemptResult) :
  omap (fmap file) (Some <$> rs) = file <$> rs.
Proof. induction rs as [|r rs IH]; [done|]. cbn. by f_equal. Qed.

Lemma resolved_spec s summary :
  reachable s -> summary ∈ resolved s ->
  resolved s = [summary]
  /\ summarise (results s) = Some summary
  /\ length (summary_results summary) = length files
  /\ file <$> summary_results summary ≡ₚ files
  /\ task_file <$> admitted s = files
  /\ (fun t => progress_index (task_progress t)) <$> admitted s
     = seqZ 1 (Z.of_nat (length files))
  /\ active s = [].
Proof.
  intros Hr Hin. pose proof (reachable_invariant s Hr) as Hinv.
  destruct (invariant_resolved_idle s Hinv) as (Hact & Hrun & Hidx).
  { intros E. rewrite E in Hin. by apply elem_of_nil in Hin. }
  destruct Hinv.
  destruct inv_resolved0 as [E|(summary' & E & Hsum & Hlen)].
  { rewrite E in Hin. by apply elem_of_nil in Hin. }
  rewrite E in Hin. apply list_elem_of_singleton in Hin as ->.
  destruct (summarise_inv _ _ Hsum) as (Hres & _).
  assert (length (summary_results summary') = length files) as Hcount.
  { rewrite Hres, length_fmap in Hlen. unfold total in Hlen. lia. }
  assert (length (admitted s) = length files) as Hadm.
  { unfold total in Hidx. lia. }
  rewrite Hadm, firstn_all in inv_admitted0.
  repeat split; try done.
  - apply submseteq_length_Permutation; [|by rewrite length_fmap, Hcount].
    rewrite Hres, omap_file_Some, Hact, app_nil_r in inv_tasks0.
    by rewrite <- inv_admitted0.
  - by rewrite inv_numbers0, Hidx.
Qed.

(** Every result recorded is what an invocation was fulfilled with. *)
Lemma reachable_results s result :
  reachable s -> result ∈ results s ->
  exists t, possible_outcome t (Fulfilled result).
Proof.
  intros H. revert result.
  apply (rtc_ind_r (R := step)
           (fun s => forall result, result ∈ results s ->
              exists t, possible_outcome t (Fulfilled result)) initial);
    [| |exact H].
  { intros result Hin. by apply elem_of_nil in Hin. }
  clear s H. intros s s' Hreach Hstep IH result.
  assert (forall i t r0, possible_outcome t (Fulfilled r0) ->
            result ∈ results (record_result (retire s i) r0) ->
            exists t, possible_outcome t (Fulfilled result)) as Hrecord.
  { intros i t r0 Hout. simpl.
    intros [Hin| ->%list_elem_of_singleton]%elem_of_app; [by apply IH|by exists t]. }
  destruct Hstep as [s Hg | s i t r0 s' Hi Hout Hc
                    | s i t r0 e Hi Hout Hc | s i t e Hi Hout].
  - simpl. apply IH.
  - revert Hc. unfold check_complete. destruct (_ =? _); [|intros [= <-]; by eapply Hrecord].
    destruct (summarise _); [|done]. intros [= <-]. simpl. by eapply (Hrecord i).
  - by eapply Hrecord.
  - simpl. apply IH.
Qed.

Lemma possible_outcome_failed t r :
  possible_outcome t (Fulfilled (Some r)) -> success r = false -> failed_attempt r.
Proof.
  intros (net & fs & H) Hs. unfold compressImage in H.
  apply attempts_inv in H as [_ Hcase]; [|intros r0 [=]].
  destruct Hcase as [? ? ? ? ? ? Hs' | ?]; [congruence|done].
Qed.

(** *** The empty batch *)

Lemma reachable_empty s : files = [] -> reachable s -> s = initial.
Proof.
  intros Hnil H.
  apply (rtc_ind_r (R := step) (fun s => s = initial) initial); [done| |exact H].
  intros y z _ Hstep Hy.
  destruct Hstep as [s0 Hg | s0 i t r0 s' Hi Hout Hc
                    | s0 i t r0 e Hi Hout Hc | s0 i t e Hi Hout]; subst s0; try done.
  apply guard_true in Hg as [_ Hg]. rewrite Hnil in Hg. simpl in Hg. lia.
Qed.

(** ** Counting the outcomes of a file *)

Lemma filter_file_nil (rs : list AttemptResult) f :
  f ∉ file <$> rs -> filter (fun r => file r = f) rs = [].
Proof.
  induction rs as [|r rs IH]; [done|]. rewrite fmap_cons, not_elem_of_cons.
  intros [Hne Hnot]. rewrite filter_cons_False by done. by apply IH.
Qed.

Lemma filter_file_NoDup (rs : list AttemptResult) f :
  NoDup (file <$> rs) -> f ∈ file <$> rs ->
  length (filter (fun r => file r = f) rs) = 1%nat.
Proof.
  induction rs as [|r rs IH]; intros Hnd Hin.
  - by apply elem_of_nil in Hin.
  - rewrite fmap_cons in Hnd, Hin. apply NoDup_cons in Hnd as [Hnot Hnd].
    destruct (decide (file r = f)) as [<-|Hne].
    + rewrite filter_cons_True by done. simpl. by rewrite filter_file_nil.
    + rewrite filter_cons_False by done. apply IH; [done|].
      apply elem_of_cons in Hin as [?|?]; [congruence|done].
Qed.

(** ** Reading a trace *)

Lemma attempts_made_timeline trace : attempts_made (timeline trace) = attempts_made trace.
Proof.
  induction trace as [|e trace IH]; [done|].
  unfold timeline in *. destruct e.
  - rewrite filter_cons_True by done. cbn. by f_equal.
  - rewrite filter_cons_False by (cbn; auto). exact IH.
  - rewrite filter_cons_True by done. exact IH.
Qed.

Lemma sleeps_timeline trace : sleeps (timeline trace) = sleeps trace.
Proof.
  induction trace as [|e trace IH]; [done|].
  unfold timeline in *. destruct e.
  - rewrite filter_cons_True by done. exact IH.
  - rewrite filter_cons_False by (cbn; auto). exact IH.
  - rewrite filter_cons_True by done. cbn. by f_equal.
Qed.

Lemma attempts_made_backoff (l : list Z) M :
  attempts_made ((l ≫= fun a => [Attempt a; Sleep (a * 1000)]) ++ [Attempt M]) = l ++ [M].
Proof. induction l as [|a l IH]; [done|]. cbn. by f_equal. Qed.

Lemma sleeps_backoff (l : list Z) M :
  sleeps ((l ≫= fun a => [Attempt a; Sleep (a * 1000)]) ++ [Attempt M])
  = (fun a => a * 1000) <$> l.
Proof. induction l as [|a l IH]; [done|]. cbn. by f_equal. Qed.

(** With room for every file the limit never makes a file wait: the
    condition of [next] is that of a loop over the files. *)
Lemma guard_unbounded s :
  Z.of_nat (length files) <= limit -> reachable s ->
  guard s = (index s <? Z.of_nat (length files)).
Proof.
  intros Hroom Hs. destruct (reachable_invariant s Hs). unfold guard.
  destruct (index s <? Z.of_nat (length files)) eqn:E; [|apply andb_false_r].
  apply Z.ltb_lt in E. rewrite andb_true_r. apply Z.ltb_lt. lia.
Qed.

(** *** Batches that stop *)

Lemma run_idle schedule w :
  active (scheduler w) = [] -> foldl settle_pick w schedule = w.
Proof.
  intros Hidle. induction schedule as [|pick schedule IH]; [done|].
  simpl. unfold settle_pick at 2. rewrite Hidle. simpl. exact IH.
Qed.

Lemma settle_pick_single w pick t :
  active (scheduler w) = [t] -> settle_pick w pick = settle_pick w 0.
Proof.
  intros Hone. unfold settle_pick. rewrite Hone.
  change (length [t]) with 1%nat. by rewrite !Nat.mod_1_r.
Qed.

(** ** More on the retry loop *)

Lemma attempt_case_frame fs path old x fs' r f :
  attempt_case fs path old x fs' r -> f <> path -> fs' !! f = fs !! f.
Proof. destruct 1; try done. intros Hne. by rewrite lookup_insert_ne. Qed.

Lemma attempt_case_sizes fs path old x fs' r :
  attempt_case fs path old x fs' r -> statSync_size fs path = Some old ->
  oldSize r = old /\ statSync_size fs' path = Some (newSize r).
Proof.
  destruct 1; simpl; intros Hstat; split; try done.
  apply statSync_size_Some, lookup_insert_eq.
Qed.

(** The loop writes to no other file. *)
Lemma attempts_frame path key progress M net todo result0 fs f :
  f <> path ->
  inv_fs (attempts path key progress M net todo result0 fs) !! f = fs !! f.
Proof.
  intros Hne. revert result0 fs.
  induction todo as [|a todo IH]; intros result0 fs; [done|].
  destruct (compressOnce fs path key (net a)) as [[fs1 r]|e] eqn:E.
  2:{ by rewrite (attempts_rejected _ _ _ _ _ _ _ _ _ _ E). }
  destruct (compressOnce_inv _ _ _ _ _ _ E) as (content & _ & Hcase).
  pose proof (attempt_case_frame _ _ _ _ _ _ f Hcase Hne) as Hframe.
  destruct (success r) eqn:Hs.
  - by rewrite (attempts_success _ _ _ _ _ _ _ _ _ _ _ E Hs).
  - destruct (negb (retryable r) || (a =? M)) eqn:Hstop.
    + by rewrite (attempts_final _ _ _ _ _ _ _ _ _ _ _ E Hs Hstop).
    + rewrite (attempts_retry _ _ _ _ _ _ _ _ _ _ _ E Hs Hstop). cbv zeta. simpl.
      by rewrite IH.
Qed.

(** On a file that cannot be read the loop is rejected at its first
    attempt, or makes none; it writes nothing and has no result. *)
Lemma attempts_missing path key progress M net todo fs :
  fs !! path = None ->
  inv_fs (attempts path key progress M net todo None fs) = fs
  /\ forall r, inv_out (attempts path key progress M net todo None fs)
               <> Fulfilled (Some r).
Proof.
  intros Hnone. destruct todo as [|a todo]; [done|].
  by rewrite (attempts_rejected _ _ _ _ _ _ _ _ _ _
                (compressOnce_missing fs path key (net a) Hnone)).
Qed.

(** The sizes of a result are those of the file before and after. *)
Lemma attempts_sizes path key progress M net todo result0 fs r :
  (forall r0, result0 = Some r0 ->
     statSync_size fs path = Some (oldSize r0) /\ newSize r0 = oldSize r0) ->
  inv_out (attempts path key progress M net todo result0 fs) = Fulfilled (Some r) ->
  statSync_size fs path = Some (oldSize r)
  /\ statSync_size (inv_fs (attempts path key progress M net todo result0 fs)) path
     = Some (newSize r).
Proof.
  revert result0 fs. induction todo as [|a todo IH]; intros result0 fs Hprev Hout.
  - simpl in *. injection Hout as ->. destruct (Hprev r eq_refl) as [Hold Hnew].
    by rewrite Hnew.
  - destruct (compressOnce fs path key (net a)) as [[fs1 r1]|e] eqn:E.
    2:{ rewrite (attempts_rejected _ _ _ _ _ _ _ _ _ _ E) in Hout. discriminate. }
    destruct (compressOnce_inv _ _ _ _ _ _ E) as (content & Hfile & Hcase).
    pose proof (statSync_size_Some _ _ _ Hfile) as Hstat.
    destruct (attempt_case_sizes _ _ _ _ _ _ Hcase Hstat) as [Hold Hnew].
    destruct (success r1) eqn:Hs.
    + rewrite (attempts_success _ _ _ _ _ _ _ _ _ _ _ E Hs) in *.
      simpl in *. injection Hout as ->. by rewrite Hold.
    + destruct (attempt_case_failed _ _ _ _ _ _ Hcase Hs) as [-> (_ & Hsame & _)].
      destruct (negb (retryable r1) || (a =? M)) eqn:Hstop.
      * rewrite (attempts_final _ _ _ _ _ _ _ _ _ _ _ E Hs Hstop) in *.
        simpl in *. injection Hout as ->. by rewrite Hold.
      * rewrite (attempts_retry _ _ _ _ _ _ _ _ _ _ _ E Hs Hstop) in *.
        cbv zeta in *. simpl in Hout |- *. apply IH; [|done].
        intros r0 [= <-]. split; [by rewrite Hold|done].
Qed.

Lemma sleeps_retry a line ms trace :
  sleeps (Attempt a :: Log line :: Sleep ms :: trace) = ms :: sleeps trace.
Proof. reflexivity. Qed.

Lemma seqZ_succ j (n : nat) :
  seqZ j (Z.of_nat (S n)) = j :: seqZ (Z.succ j) (Z.of_nat n).
Proof. rewrite seqZ_cons by lia. do 2 f_equal. lia. Qed.

(** The loop over the attempts [j] to [M]: it makes the attempts [j] to
    some [k], each before [k] a retryable failure, and waits after each of
    them. *)
Lemma attempts_consecutive path key progress M net fs n j result0 :
  j + Z.of_nat n = M ->
  exists k,
    j <= k <= M
    /\ attempts_made (inv_trace (attempts path key progress M net
                                   (seqZ j (Z.of_nat (S n))) result0 fs))
       = seqZ j (k - j + 1)
    /\ sleeps (inv_trace (attempts path key progress M net
                            (seqZ j (Z.of_nat (S n))) result0 fs))
       = (fun a => a * 1000) <$> seqZ j (k - j)
    /\ (forall a, j <= a < k ->
          exists r, compressOnce fs path key (net a) = Fulfilled (fs, r)
                    /\ success r = false /\ retryable r = true)
    /\ (k < M -> forall fs' r,
          compressOnce fs path key (net k) = Fulfilled (fs', r) ->
          success r = true \/ retryable r = false).
Proof.
  assert (forall (i : Z) inv,
            i <= M ->
            attempts_made (inv_trace inv) = [i] -> sleeps (inv_trace inv) = [] ->
            (i < M -> forall fs' r,
               compressOnce fs path key (net i) = Fulfilled (fs', r) ->
               success r = true \/ retryable r = false) ->
            exists k,
              i <= k <= M
              /\ attempts_made (inv_trace inv) = seqZ i (k - i + 1)
              /\ sleeps (inv_trace inv) = (fun a => a * 1000) <$> seqZ i (k - i)
              /\ (forall a, i <= a < k ->
                    exists r, compressOnce fs path key (net a) = Fulfilled (fs, r)
                              /\ success r = false /\ retryable r = true)
              /\ (k < M -> forall fs' r,
                    compressOnce fs path key (net k) = Fulfilled (fs', r) ->
                    success r = true \/ retryable r = false)) as Hsingle.
  { intros i inv Hi Hmade Hsleeps Hlast. exists i. rewrite Hmade, Hsleeps, Z.sub_diag.
    split; [lia|]. split. { simpl. by rewrite seqZ_cons, seqZ_nil by lia. }
    split; [done|]. split; [intros; lia|done]. }
  revert j result0. induction n as [|n IH]; intros j result0 HM; rewrite seqZ_succ.
  all: destruct (compressOnce fs path key (net j)) as [[fs1 r]|e] eqn:E;
    [destruct (success r) eqn:Hs;
      [|destruct (negb (retryable r) || (j =? M)) eqn:Hstop]|].
  all: try (rewrite (attempts_rejected _ _ _ _ _ _ _ _ _ _ E);
            apply Hsingle; [lia|done|done|]; intros _ fs' r' E';
            by rewrite E in E').
  all: try (rewrite (attempts_success _ _ _ _ _ _ _ _ _ _ _ E Hs);
            apply Hsingle; [lia|done|done|]; intros _ fs' r' E';
            rewrite E in E'; injection E' as <- <-; by left).
  all: try (rewrite (attempts_final _ _ _ _ _ _ _ _ _ _ _ E Hs Hstop);
            apply Hsingle; [lia|done|done|]; intros Hlt fs' r' E';
            rewrite E in E'; injection E' as <- <-;
            apply orb_true_iff in Hstop as [Hnr|Heq%Z.eqb_eq]; [|lia];
            right; by apply negb_true_iff).
  all: apply orb_false_iff in Hstop as Hstop'; destruct Hstop' as [Hretry Hne].
  all: apply negb_false_iff in Hretry; apply Z.eqb_neq in Hne.
  - lia.
  - destruct (compressOnce_inv _ _ _ _ _ _ E) as (content & _ & Hcase).
    destruct (attempt_case_failed _ _ _ _ _ _ Hcase Hs) as [-> _].
    rewrite (attempts_retry _ _ _ _ _ _ _ _ _ _ _ E Hs Hstop). cbv zeta. simpl inv_trace.
    destruct (IH (Z.succ j) (Some r)) as (k & Hk & Hmade & Hsleeps & Hbefore & Hlast);
      [lia|].
    exists k. split; [lia|].
    rewrite attempts_made_retry, sleeps_retry, Hmade, Hsleeps.
    split. { rewrite (seqZ_cons j) by lia. do 2 f_equal. lia. }
    split. { rewrite (seqZ_cons j (k - j)) by lia. rewrite fmap_cons. do 3 f_equal. lia. }
    split; [|done].
    intros a Ha. destruct (decide (a = j)) as [->|Hnej]; [by exists r|].
    apply Hbefore. lia.
Qed.

(** The lines logged by the loop over the attempts [j] to [M]: one for
    each attempt that is retried, then the one of the result. *)
Lemma attempts_logs path key progress M net fs n j result0 r :
  j + Z.of_nat n = M ->
  inv_out (attempts path key progress M net (seqZ j (Z.of_nat (S n))) result0 fs)
  = Fulfilled (Some r) ->
  exists retried,
    logs (inv_trace (attempts path key progress M net (seqZ j (Z.of_nat (S n)))
                       result0 fs))
    = retried ++ [outcome_line progress path r]
    /\ attempts_made (inv_trace (attempts path key progress M net
                                   (seqZ j (Z.of_nat (S n))) result0 fs))
       = seqZ j (Z.of_nat (S (length retried)))
    /\ Forall2 (fun a line =>
                  exists r0, compressOnce fs path key (net a) = Fulfilled (fs, r0)
                             /\ success r0 = false /\ retryable r0 = true
                             /\ line = Retrying progress a M path (errorMsg r0) a)
         (seqZ j (Z.of_nat (length retried))) retried.
Proof.
  revert j result0. induction n as [|n IH]; intros j result0 HM; rewrite seqZ_succ.
  all: destruct (compressOnce fs path key (net j)) as [[fs1 r1]|e] eqn:E;
    [destruct (success r1) eqn:Hs;
      [|destruct (negb (retryable r1) || (j =? M)) eqn:Hstop]|].
  all: try (rewrite (attempts_rejected _ _ _ _ _ _ _ _ _ _ E); by intros [=]).
  all: try (rewrite (attempts_success _ _ _ _ _ _ _ _ _ _ _ E Hs);
            intros [= <-]; exists []; unfold outcome_line; rewrite Hs;
            split; [done|]; split; [by rewrite seqZ_succ, seqZ_nil|constructor]).
  all: try (rewrite (attempts_final _ _ _ _ _ _ _ _ _ _ _ E Hs Hstop);
            intros [= <-]; exists []; unfold outcome_line; rewrite Hs;
            split; [done|]; split; [by rewrite seqZ_succ, seqZ_nil|constructor]).
  all: apply orb_false_iff in Hstop as Hstop'; destruct Hstop' as [Hretry Hne].
  all: apply negb_false_iff in Hretry; apply Z.eqb_neq in Hne.
  - lia.
  - destruct (compressOnce_inv _ _ _ _ _ _ E) as (content & _ & Hcase).
    destruct (attempt_case_failed _ _ _ _ _ _ Hcase Hs) as [-> _].
    rewrite (attempts_retry _ _ _ _ _ _ _ _ _ _ _ E Hs Hstop). cbv zeta.
    cbn [inv_trace inv_out]. intros Hout.
    destruct (IH (Z.succ j) (Some r1)) as (retried & Hlogs & Hmade & Hall);
      [lia|exact Hout|].
    exists (Retrying progress j M path (errorMsg r1) j :: retried).
    split; [|split].
    + cbn [app].
      change (logs (Attempt ?a :: Log ?line :: Sleep ?ms :: ?t)) with (line :: logs t).
      by rewrite Hlogs.
    + cbn [app]. rewrite attempts_made_retry, Hmade. cbn [length].
      by rewrite (seqZ_succ j).
    + cbn [length]. rewrite seqZ_succ. constructor; [|done]. by exists r1.
Qed.

(** ** More on the scheduler *)

Lemma check_complete_fields s s' :
  check_complete s = Fulfilled s' ->
  results s' = results s /\ active s' = active s /\ running s' = running s
  /\ index s' = index s /\ admitted s' = admitted s.
Proof.
  unfold check_complete. destruct (_ =? _); [|by intros [= <-]].
  destruct (summarise _); [|done]. by intros [= <-].
Qed.

(** The results after a settlement: one more when the invocation was
    fulfilled, the same when it was rejected. *)
Lemma settle_results s i out :
  results (settle s i out)
  = match out with
    | Fulfilled result => results s ++ [result]
    | Rejected _ => results s
    end.
Proof.
  destruct out as [result|e]; [|done]. simpl. unfold callback.
  destruct (check_complete _) as [s2|e] eqn:Hc; [|done].
  rewrite next_results. by destruct (check_complete_fields _ _ Hc) as [-> _].
Qed.

(** The invocations of an executable batch are those of its files, and
    they write to no other file. *)
Lemma settle_pick_frame w pick f :
  reachable (scheduler w) -> f ∉ files ->
  storage (settle_pick w pick) !! f = storage w !! f.
Proof.
  intros Hr Hf. unfold settle_pick.
  destruct (active (scheduler w) !! _) as [t|] eqn:Hi; [|done]. simpl.
  unfold compressImage. apply attempts_frame. intros ->. apply Hf.
  eapply active_file_in_files; [by apply reachable_invariant|].
  by eapply list_elem_of_lookup_2.
Qed.

Lemma run_frame schedule w f :
  reachable (scheduler w) -> f ∉ files ->
  storage (foldl settle_pick w schedule) !! f = storage w !! f.
Proof.
  revert w. induction schedule as [|pick schedule IH]; intros w Hr Hf; [done|].
  simpl. rewrite IH; [|by apply settle_pick_reachable|done].
  by apply settle_pick_frame.
Qed.

Lemma starved_settle_pick f w pick : starved f w -> starved f (settle_pick w pick).
Proof.
  intros [Hr Hmiss Hres].
  pose proof (settle_pick_reachable w pick Hr) as Hr'. revert Hr'.
  unfold settle_pick.
  destruct (active (scheduler w) !! _) as [t|] eqn:Hi; [|by split]. simpl.
  intros Hr'. unfold compressImage in *.
  set (inv := attempts (task_file t) apiKey (Some (task_progress t))
                (maxAttempts_of (Some budget))
                (network (progress_index (task_progress t)))
                (seqZ 1 (maxAttempts_of (Some budget))) None (storage w)) in *.
  split; simpl; [done| |].
  - destruct (decide (task_file t = f)) as [Heq|Hne].
    + rewrite <- Heq in Hmiss.
      destruct (attempts_missing (task_file t) apiKey (Some (task_progress t))
                  (maxAttempts_of (Some budget))
                  (network (progress_index (task_progress t)))
                  (seqZ 1 (maxAttempts_of (Some budget))) (storage w) Hmiss) as [Hfs _].
      fold inv in Hfs. by rewrite Hfs, <- Heq.
    + unfold inv. by rewrite attempts_frame.
  - intros r. rewrite settle_results.
    destruct (inv_out inv) as [result|e] eqn:Hout; [|by apply Hres].
    intros [Hin| <-%list_elem_of_singleton]%elem_of_app; [by apply Hres|].
    destruct (decide (task_file t = f)) as [Heq|Hne].
    + rewrite <- Heq in Hmiss.
      destruct (attempts_missing (task_file t) apiKey (Some (task_progress t))
                  (maxAttempts_of (Some budget))
                  (network (progress_index (task_progress t)))
                  (seqZ 1 (maxAttempts_of (Some budget))) (storage w) Hmiss) as [_ Hno].
      by destruct (Hno r).
    + apply attempts_inv in Hout as [-> _]; [done|]. intros r0 [=].
Qed.

Lemma starved_run f schedule w : starved f w -> starved f (foldl settle_pick w schedule).
Proof.
  revert w. induction schedule as [|pick schedule IH]; intros w Hw; [done|].
  simpl. by apply IH, starved_settle_pick.
Qed.

Lemma starved_never_resolves f w : f ∈ files -> starved f w -> resolved (scheduler w) = [].
Proof.
  intros Hf [Hr _ Hres].
  destruct (resolved (scheduler w)) as [|summary l] eqn:E; [done|]. exfalso.
  destruct (resolved_spec (scheduler w) summary Hr) as (_ & Hsum & _ & Hperm & _).
  { rewrite E. apply list_elem_of_here. }
  destruct (summarise_inv _ _ Hsum) as (Hresults & _).
  rewrite <- Hperm in Hf. apply list_elem_of_fmap in Hf as (r & -> & Hin).
  apply (Hres r); [|done]. rewrite Hresults. by apply list_elem_of_fmap_2.
Qed.

(** *** Between two callbacks *)

Lemma healthy_run_any schedule w :
  1 <= limit -> 0 <= budget -> healthy w -> healthy (foldl settle_pick w schedule).
Proof.
  intros Hk Hbudget. revert w.
  induction schedule as [|pick schedule IH]; intros w Hw; [done|]. simpl. apply IH.
  destruct (active (scheduler w)) as [|t l] eqn:Hact.
  - unfold settle_pick. by rewrite Hact.
  - apply healthy_settle; [done..|]. by rewrite Hact.
Qed.

(** Every free slot is used: between two callbacks the number of running
    invocations is the limit, or what is left of the files. *)
Lemma healthy_conserving w :
  1 <= limit -> healthy w ->
  running (scheduler w)
  = Z.min limit (total - Z.of_nat (length (results (scheduler w))))
  /\ Z.of_nat (length (active (scheduler w))) = running (scheduler w).
Proof.
  intros Hk [Hr Hg Hb _ _ _]. split; [|done].
  destruct (reachable_invariant _ Hr). apply guard_false in Hg. unfold total in *. lia.
Qed.

(** *** A negative budget *)

Lemma possible_outcome_negative t out :
  budget < 0 -> possible_outcome t out -> out = Fulfilled None.
Proof.
  intros Hneg (net & fs & <-). unfold compressImage, maxAttempts_of, JS.or_number.
  destruct (budget =? 0) eqn:E; [lia|]. by rewrite seqZ_nil by lia.
Qed.

Lemma summarise_undefined results0 : None ∈ results0 -> summarise results0 = None.
Proof.
  intros Hin. unfold summarise.
  destruct (mapM id results0) as [rs|] eqn:E; [|done].
  apply mapM_id_inv in E. rewrite E in Hin.
  by apply list_elem_of_fmap in Hin as (r & ? & _).
Qed.

Lemma reachable_negative s :
  budget < 0 -> reachable s ->
  resolved s = [] /\ forall result, result ∈ results s -> result = None.
Proof.
  intros Hneg H.
  apply (rtc_ind_r (R := step)
           (fun s => resolved s = [] /\ forall result, result ∈ results s -> result = None)
           initial); [| |exact H].
  { split; [done|]. intros result Hin. by apply elem_of_nil in Hin. }
  clear s H. intros s s' _ Hstep [Hres Hnone].
  assert (forall i result,
            resolved (record_result (retire s i) result) = []
            /\ (result = None ->
                forall x, x ∈ results (record_result (retire s i) result) -> x = None))
    as Hrecord.
  { intros i result. split; [done|]. intros -> x. simpl.
    intros [Hin| ->%list_elem_of_singleton]%elem_of_app; [by apply Hnone|done]. }
  destruct Hstep as [s Hg | s i t result s' Hi Hout Hc
                    | s i t result e Hi Hout Hc | s i t e Hi Hout].
  - done.
  - apply (possible_outcome_negative t _ Hneg) in Hout. injection Hout as ->.
    destruct (Hrecord i None) as [Hres' Hnone']. revert Hc. unfold check_complete.
    destruct (_ =? _).
    + rewrite summarise_undefined; [done|]. simpl. apply elem_of_app. right.
      apply list_elem_of_here.
    + intros [= <-]. split; [done|]. by apply Hnone'.
  - apply (possible_outcome_negative t _ Hneg) in Hout. injection Hout as ->.
    destruct (Hrecord i None) as [Hres' Hnone']. split; [done|]. by apply Hnone'.
  - done.
Qed.

(** *** A limit below 1 *)

Lemma reachable_closed s : limit <= 0 -> reachable s -> s = initial.
Proof.
  intros Hlimit H.
  apply (rtc_ind_r (R := step) (fun s => s = initial) initial); [done| |exact H].
  intros y z _ Hstep Hy.
  destruct Hstep as [s0 Hg | s0 i t r0 s' Hi Hout Hc
                    | s0 i t r0 e Hi Hout Hc | s0 i t e Hi Hout]; subst s0; try done.
  apply guard_true in Hg as [Hg _]. simpl in Hg. lia.
Qed.

(** *** Progress labels *)

Lemma reachable_labels s :
  reachable s ->
  Forall (fun t => progress_total (task_progress t) = total) (admitted s)
  /\ forall t, t ∈ active s -> t ∈ admitted s.
Proof.
  intros H.
  apply (rtc_ind_r (R := step)
           (fun s => Forall (fun t => progress_total (task_progress t) = total)
                       (admitted s)
                     /\ forall t, t ∈ active s -> t ∈ admitted s) initial);
    [| |exact H].
  { split; [constructor|]. intros t Ht. by apply elem_of_nil in Ht. }
  clear s H. intros s s' _ Hstep [Htotal Hsub].
  assert (forall i t, t ∈ delete i (active s) -> t ∈ admitted s) as Hdel.
  { intros i t Ht. apply Hsub. by eapply list_elem_of_delete_inv. }
  destruct Hstep as [s Hg | s i t result s' Hi Hout Hc
                    | s i t result e Hi Hout Hc | s i t e Hi Hout].
  - split; simpl.
    + apply Forall_app. split; [done|]. by repeat constructor.
    + intros t [Ht|Ht]%elem_of_app; apply elem_of_app; [left; by apply Hsub|by right].
  - destruct (check_complete_fields _ _ Hc) as (_ & -> & _ & _ & ->). split; [done|].
    apply Hdel.
  - split; [done|]. apply Hdel.
  - split; [done|]. apply Hdel.
Qed.

Lemma admitted_label s i t :
  reachable s -> admitted s !! i = Some t ->
  files !! i = Some (task_file t)
  /\ task_progress t
     = {| progress_index := Z.of_nat i + 1; progress_total := Z.of_nat (length files) |}.
Proof.
  intros Hr Hi. destruct (reachable_invariant s Hr). destruct (reachable_labels s Hr) as [Ht _].
  assert (i < length (admitted s))%nat as Hlt by (by eapply lookup_lt_Some).
  split.
  - assert ((task_file <$> admitted s) !! i = Some (task_file t)) as Hf.
    { by rewrite list_lookup_fmap, Hi. }
    rewrite inv_admitted0, lookup_take_lt in Hf by done. done.
  - assert (((fun t => progress_index (task_progress t)) <$> admitted s) !! i
            = Some (progress_index (task_progress t))) as Hn.
    { by rewrite list_lookup_fmap, Hi. }
    rewrite inv_numbers0 in Hn. apply lookup_seqZ in Hn as [Hn _].
    rewrite Forall_forall in Ht. specialize (Ht t (list_elem_of_lookup_2 _ _ _ Hi)).
    destruct (task_progress t) as [pi pt]. simpl in *. unfold total in Ht. f_equal; lia.
Qed.

(** *** What was saved *)

Lemma sum_savings (rs : list AttemptResult) :
  Forall (fun r => success r = false -> newSize r = oldSize r) rs ->
  sumZ (oldSize <$> rs) - sumZ (newSize <$> rs)
  = sumZ ((fun r => oldSize r - newSize r) <$> filter (fun r => success r) rs).
Proof.
  induction 1 as [|r rs Hr _ IH]; [done|].
  rewrite !fmap_cons. unfold sumZ in *. cbn [foldr].
  destruct (success r) eqn:Hs.
  - rewrite filter_cons_True by (by rewrite Hs). rewrite fmap_cons. cbn [foldr]. lia.
  - rewrite filter_cons_False by (rewrite Hs; intros []). rewrite (Hr eq_refl). lia.
Qed.

(** ** Neither early nor late *)

Lemma results_bound s : reachable s -> (length (results s) <= length files)%nat.
Proof.
  intros Hs. destruct (reachable_invariant _ Hs).
  assert (0 <= running s) by lia. unfold total in *. lia.
Qed.

Lemma healthy_progress schedule w :
  1 <= limit -> 0 <= budget -> healthy w ->
  length (results (scheduler (foldl settle_pick w schedule)))
  = Nat.min (length (results (scheduler w)) + length schedule) (length files).
Proof.
  intros Hk Hbudget. revert w.
  induction schedule as [|pick schedule IH]; intros w Hw; simpl.
  - destruct Hw as [Hr _ _ _ _ _]. pose proof (results_bound _ Hr). lia.
  - pose proof (results_bound _ (h_reachable _ Hw)) as Hle.
    destruct (decide (length (results (scheduler w)) = length files)) as [Hall|Hmissing].
    + rewrite healthy_idle; [|done|unfold total; lia]. rewrite IH by done. lia.
    + destruct (healthy_settle w pick Hbudget Hw) as [Hw' Hl'].
      { apply healthy_pending; [done..|]. unfold total. lia. }
      rewrite IH by done. rewrite Hl'. lia.
Qed.

Lemma resolved_complete s :
  reachable s -> resolved s <> [] -> length (results s) = length files.
Proof.
  intros Hs Hne. destruct (resolved s) as [|summary l] eqn:E; [done|].
  destruct (resolved_spec s summary Hs) as (_ & Hsum & Hlen & _).
  { rewrite E. apply list_elem_of_here. }
  apply summarise_inv in Hsum as (-> & _). by rewrite length_fmap.
Qed.

(** ** The order of the results *)

Lemma chronicle_settle w pick :
  0 <= budget -> healthy w ->
  omap (fmap file) (results (scheduler w)) = (fun h => task_file h.1) <$> history w ->
  omap (fmap file) (results (scheduler (settle_pick w pick)))
  = (fun h => task_file h.1) <$> history (settle_pick w pick).
Proof.
  intros Hbudget Hw Hc.
  destruct (decide (active (scheduler w) = [])) as [Hnil|Hne].
  { unfold settle_pick. rewrite Hnil. done. }
  destruct Hw as [Hr Hg Hb Hd Hf Hres].
  pose proof (reachable_invariant _ Hr) as Hinv.
  unfold settle_pick.
  set (s := scheduler w) in *. set (i := (pick mod length (active s))%nat).
  destruct (lookup_lt_is_Some_2 (active s) i) as [t Hi].
  { apply Nat.mod_upper_bound. by destruct (active s). }
  rewrite Hi. cbn [scheduler history].
  assert (task_file t ∈ files) as Hin.
  { eapply active_file_in_files; [done|]. by eapply list_elem_of_lookup_2. }
  destruct (attempts_fulfilled (task_file t) apiKey (Some (task_progress t))
              (maxAttempts_of (Some budget))
              (network (progress_index (task_progress t)))
              (seqZ 1 (maxAttempts_of (Some budget))) None (storage w) (Hf _ Hin))
    as (result & Hout & Hsome & _).
  destruct (Hsome (maxAttempts_of_budget Hbudget)) as [r ->].
  fold (compressImage (task_file t) apiKey (Some (task_progress t)) (Some budget)
          (network (progress_index (task_progress t))) (storage w)) in Hout.
  rewrite settle_results, Hout, omap_app, fmap_app, Hc. f_equal.
  simpl. by rewrite (compressImage_file _ _ _ _ _ _ _ Hout).
Qed.

Lemma chronicle_run schedule w :
  1 <= limit -> 0 <= budget -> healthy w ->
  omap (fmap file) (results (scheduler w)) = (fun h => task_file h.1) <$> history w ->
  omap (fmap file) (results (scheduler (foldl settle_pick w schedule)))
  = (fun h => task_file h.1) <$> history (foldl settle_pick w schedule).
Proof.
  intros Hk Hbudget. revert w.
  induction schedule as [|pick schedule IH]; intros w Hw Hc; [done|]. simpl.
  apply IH; [|by apply chronicle_settle].
  apply (healthy_run_any [pick] w Hk Hbudget Hw).
Qed.

(** ** One invocation per file *)

Lemma reachable_NoDup s :
  NoDup files -> reachable s ->
  NoDup (omap (fmap file) (results s) ++ (task_file <$> active s)).
Proof.
  intros Hnd Hs. destruct (reachable_invariant _ Hs).
  apply submseteq_Permutation in inv_tasks0 as [rest Hperm].
  assert (NoDup (task_file <$> admitted s)) as Hadm.
  { rewrite inv_admitted0. eapply sublist_NoDup; [done|apply sublist_take]. }
  rewrite Hperm in Hadm. by apply NoDup_app in Hadm as (? & _).
Qed.

End Batch.

(** ** Two limits *)

(** Two limits that agree on the condition of the [while] wherever
    [running <= index] give the same batch. *)
Lemma next_loop_ext files K K' fuel s :
  (forall s, running s <= index s -> guard files K s = guard files K' s) ->
  running s <= index s ->
  next_loop files K fuel s = next_loop files K' fuel s.
Proof.
  intros Hg. revert s. induction fuel as [|fuel IH]; intros s Hs; [done|].
  simpl. rewrite <- (Hg s Hs). destruct (guard files K s); [|done].
  apply IH. simpl. lia.
Qed.

Lemma settle_ext files K K' s i out :
  (forall s, running s <= index s -> guard files K s = guard files K' s) ->
  running s - 1 <= index s ->
  settle files K s i out = settle files K' s i out.
Proof.
  intros Hg Hs. destruct out as [result|e]; [|done].
  unfold settle, callback.
  destruct (check_complete files (record_result (retire s i) result)) as [s2|e] eqn:E;
    [|done].
  apply check_complete_fields in E as (_ & _ & Hrun & Hidx & _).
  unfold next. apply next_loop_ext; [done|]. rewrite Hrun, Hidx. simpl. lia.
Qed.

Lemma run_ext files apiKey K K' retries network schedule w :
  (forall s, running s <= index s -> guard files K s = guard files K' s) ->
  reachable files apiKey K retries (scheduler w) ->
  foldl (settle_pick files apiKey K retries network) w schedule
  = foldl (settle_pick files apiKey K' retries network) w schedule.
Proof.
  intros Hg. revert w. induction schedule as [|pick schedule IH]; intros w Hw; [done|].
  assert (settle_pick files apiKey K retries network w pick
          = settle_pick files apiKey K' retries network w pick) as Hstep.
  { unfold settle_pick.
    destruct (active (scheduler w) !! _) as [t|]; [|done].
    f_equal. apply settle_ext; [done|].
    destruct (reachable_invariant _ _ _ _ _ Hw). lia. }
  simpl. rewrite <- Hstep. apply IH. by apply settle_pick_reachable.
Qed.

Lemma compressBatch_ext files apiKey K K' retries network fs schedule :
  (forall s, running s <= index s -> guard files K s = guard files K' s) ->
  compressBatch files apiKey K retries network fs schedule
  = compressBatch files apiKey K' retries network fs schedule.
Proof.
  intros Hg. unfold compressBatch.
  assert (next files K initial = next files K' initial) as Hnext.
  { unfold next. apply next_loop_ext; [done|]. simpl. lia. }
  rewrite <- Hnext. apply run_ext; [done|].
  cbn [scheduler]. apply next_loop_reachable. apply rtc_refl.
Qed.

Lemma guard_roomy files K s :
  Z.of_nat (length files) <= limit K -> running s <= index s ->
  guard files K s = (index s <? Z.of_nat (length files)).
Proof.
  intros HK Hs. unfold guard.
  destruct (index s <? Z.of_nat (length files)) eqn:E.
  - rewrite andb_true_r. apply Z.ltb_lt. apply Z.ltb_lt in E. lia.
  - apply andb_false_r.
Qed.

(** The batch of the empty list. *)
Lemma compressBatch_empty apiKey maxConcurrency retries network fs schedule :
  compressBatch [] apiKey maxConcurrency retries network fs schedule
  = {| storage := fs; scheduler := initial; history := [] |}.
Proof.
  assert (next [] maxConcurrency initial = initial) as Hnext.
  { apply (reachable_empty [] apiKey maxConcurrency retries); [done|].
    apply next_loop_reachable. apply rtc_refl. }
  unfold compressBatch. rewrite Hnext. by apply run_idle.
Qed.

(** ** The file list *)

Lemma foldl_Set_add (acc l : list string) :
  foldl Set_add acc l = acc ++ filter (fun x => x ∉ acc) (foldl Set_add [] l).
Proof.
  induction l as [|y l IH] using rev_ind.
  - simpl. by rewrite app_nil_r.
  - rewrite !foldl_app. cbn [foldl]. rewrite IH. unfold Set_add at 1 3.
    destruct (bool_decide (y ∈ foldl Set_add [] l)) eqn:E1.
    + apply bool_decide_eq_true in E1.
      rewrite bool_decide_eq_true_2; [done|].
      destruct (decide (y ∈ acc)) as [Hy|Hy].
      * apply elem_of_app. by left.
      * apply elem_of_app. right. by apply list_elem_of_filter.
    + apply bool_decide_eq_false in E1.
      rewrite filter_app.
      destruct (decide (y ∈ acc)) as [Hy|Hy].
      * rewrite bool_decide_eq_true_2 by (apply elem_of_app; by left).
        rewrite filter_cons_False by (intros Hn; by apply Hn).
        by rewrite filter_nil, app_nil_r.
      * rewrite bool_decide_eq_false_2.
        { rewrite filter_cons_True by done. by rewrite filter_nil, app_assoc. }
        intros [?|[_ ?]%list_elem_of_filter]%elem_of_app; done.
Qed.

Lemma dedupe_cons x l : dedupe (x :: l) = x :: filter (fun y => y <> x) (dedupe l).
Proof.
  unfold dedupe. simpl. unfold Set_add at 2. simpl.
  rewrite foldl_Set_add. simpl. f_equal. apply list_filter_iff.
  intros y. rewrite list_elem_of_singleton. done.
Qed.

Lemma dedupe_elem_of l x : x ∈ dedupe l <-> x ∈ l.
Proof.
  revert x. induction l as [|y l IH]; intros x; [done|].
  rewrite dedupe_cons, !elem_of_cons, list_elem_of_filter, IH.
  split.
  - intros [->|[_ ?]]; [by left|by right].
  - intros [->|?]; [by left|].
    destruct (decide (x = y)) as [->|]; [by left|by right].
Qed.

Lemma dedupe_NoDup l : NoDup (dedupe l).
Proof.
  induction l as [|y l IH]; [apply NoDup_nil_2|].
  rewrite dedupe_cons. apply NoDup_cons_2.
  - intros [Hy _]%list_elem_of_filter. done.
  - by apply NoDup_filter.
Qed.

Lemma dedupe_sublist l : dedupe l `sublist_of` l.
Proof.
  induction l as [|y l IH]; [done|].
  rewrite dedupe_cons. apply sublist_skip.
  etrans; [apply sublist_filter|done].
Qed.

Lemma filter_all (x : string) (l : list string) :
  x ∉ l -> filter (fun y => y <> x) l = l.
Proof.
  induction l as [|z l IH]; [done|]. intros Hx.
  apply not_elem_of_cons in Hx as [Hz Hx].
  rewrite filter_cons_True by done. by rewrite IH.
Qed.

Lemma dedupe_id l : NoDup l -> dedupe l = l.
Proof.
  induction 1 as [|y l Hy Hnd IH]; [done|].
  by rewrite dedupe_cons, IH, filter_all.
Qed.

(** * The claims *)

(** C1.  For every concurrency limit [K >= 1], at every instant of
    [compressBatch(files, apiKey, K, retries)] the invocations of
    [compressImage] that are pending are at most [running], and [running]
    is at most [K]; each invocation makes its attempts one after the
    other, so no more than [K] requests are in flight.  With [K = 1] the
    files are processed strictly one after the other, in input order; and
    when [K] is at least the number of files, the first call of [next]
    starts them all and the limit never makes a file wait. *)
Theorem concurrency_bound (files : list string) (apiKey : string) (K : Z)
    (retries : option Z) :
  1 <= K ->
  (forall s, reachable files apiKey (Some K) retries s ->
     Z.of_nat (length (active s)) <= running s /\ running s <= K)
  /\ (K = 1 ->
      forall s, reachable files apiKey (Some K) retries s -> sequential files s)
  /\ (Z.of_nat (length files) <= K ->
      task_file <$> active (next files (Some K) initial) = files
      /\ running (next files (Some K) initial) = Z.of_nat (length files)
      /\ forall s, reachable files apiKey (Some K) retries s ->
           guard files (Some K) s = (index s <? Z.of_nat (length files))).
Proof.
  intros HK.
  assert (limit (Some K) = K) as Hlimit.
  { unfold limit, JS.or_number. destruct (K =? 0) eqn:E; [lia|done]. }
  split; [|split].
  - intros s Hs. destruct (reachable_invariant _ _ _ _ s Hs).
    rewrite Hlimit in inv_running0. lia.
  - intros -> s Hs. by eapply reachable_sequential.
  - intros Hroom.
    destruct (next_loop_all files (Some K) (Z.to_nat (total files - index initial)) initial)
      as (_ & Hrun & Hact);
      [unfold total; simpl; lia | simpl; lia | rewrite Hlimit; unfold total; simpl; lia |].
    split; [exact Hact|]. split.
    + unfold next. rewrite Hrun. simpl. unfold total. lia.
    + intros s Hs. eapply guard_unbounded; [|exact Hs]. by rewrite Hlimit.
Qed.

(** C2.  When [compressBatch] resolves, it does so once, with as many
    Outcomes as there are input files; the [file] fields of the Outcomes
    are the input files, each as many times as it is in the input, in some
    order; every input position was started exactly once, in input order
    and numbered from 1; and when the input files are pairwise distinct,
    each of them is the [file] of exactly one Outcome. *)
Theorem outcomes_exactly_once (files : list string) (apiKey : string)
    (maxConcurrency retries : option Z) (s : Scheduler) (summary : BatchSummary) :
  reachable files apiKey maxConcurrency retries s ->
  summary ∈ resolved s ->
  resolved s = [summary]
  /\ results s = Some <$> summary_results summary
  /\ length (summary_results summary) = length files
  /\ file <$> summary_results summary ≡ₚ files
  /\ task_file <$> admitted s = files
  /\ (fun t => progress_index (task_progress t)) <$> admitted s
     = seqZ 1 (Z.of_nat (length files))
  /\ (NoDup files ->
      forall f, f ∈ files ->
        length (filter (fun r => file r = f) (summary_results summary)) = 1%nat).
Proof.
  intros Hs Hin.
  destruct (resolved_spec _ _ _ _ s summary Hs Hin)
    as (Hone & Hsum & Hlen & Hperm & Hadm & Hnum & _).
  destruct (summarise_inv _ _ Hsum) as (Hres & _).
  repeat split; try done.
  intros Hnd f Hf. apply filter_file_NoDup.
  - by rewrite Hperm.
  - by rewrite Hperm.
Qed.

(** C3: a missed case.  [compressOnce] calls [fs.statSync] and
    [fs.readFileSync] in the executor of its promise, which takes no
    [reject] and has no [try]: for a path that cannot be read the promise
    is rejected before any request is made, whatever the service would
    answer.  [compressImage] has no [try] around its [await]: with
    [maxAttempts >= 1] it is rejected at its first attempt, without a log
    line, a retry or a result, so the failure goes past the controller
    instead of being data.  [compressBatch] gives [then] no rejection
    handler: a batch that holds such a file never resolves, for every
    limit, budget, service and order of settlement; and with a limit of 1
    and the file first in the list, [running] is never decremented and
    no other file is ever started. *)
Theorem unreadable_file_rejects (path apiKey : string) (fs : Storage) :
  fs !! path = None ->
  (forall x, compressOnce fs path apiKey x = Rejected "ENOENT")
  /\ (forall progress retries net,
        1 <= maxAttempts_of retries ->
        compressImage path apiKey progress retries net fs
        = {| inv_fs := fs; inv_trace := [Attempt 1]; inv_out := Rejected "ENOENT" |})
  /\ (forall files maxConcurrency retries network schedule,
        path ∈ files ->
        resolved (scheduler (compressBatch files apiKey maxConcurrency retries network
                               fs schedule)) = [])
  /\ (forall rest retries network pick schedule,
        0 <= budget retries ->
        compressBatch (path :: rest) apiKey (Some 1) retries network fs (pick :: schedule)
        = let task := {| task_file := path;
                         task_progress :=
                           {| progress_index := 1;
                              progress_total := Z.of_nat (length (path :: rest)) |} |} in
          {| storage := fs;
             scheduler := {| index := 1; running := 1; progressIndex := 1;
                             results := []; resolved := []; active := [];
                             admitted := [task] |};
             history := [(task, [Attempt 1])] |}).
Proof.
  intros Hmissing.
  assert (forall progress retries net,
            1 <= maxAttempts_of retries ->
            compressImage path apiKey progress retries net fs
            = {| inv_fs := fs; inv_trace := [Attempt 1]; inv_out := Rejected "ENOENT" |})
    as Himage.
  { intros progress retries net HM. unfold compressImage.
    rewrite seqZ_cons by lia. apply attempts_rejected. by apply compressOnce_missing. }
  split; [intros x; by apply compressOnce_missing|]. split; [exact Himage|]. split.
  - intros files maxConcurrency retries network schedule Hin.
    apply (starved_never_resolves files apiKey maxConcurrency retries path); [done|].
    apply starved_run. split; cbn [scheduler storage].
    + apply next_loop_reachable. apply rtc_refl.
    + done.
    + intros r. rewrite next_results. simpl. by intros ?%elem_of_nil.
  - intros rest retries network pick schedule Hbudget. cbv zeta.
    set (files := path :: rest).
    assert (guard files (Some 1) initial = true) as Hfirst.
    { unfold guard. apply andb_true_iff. split; apply Z.ltb_lt; simpl; lia. }
    assert (guard files (Some 1) (admit_next files initial) = false) as Hsecond.
    { unfold guard. apply andb_false_iff. left. apply Z.ltb_ge. simpl. lia. }
    assert (next files (Some 1) initial = admit_next files initial) as Hnext.
    { unfold next, total.
      replace (Z.to_nat (Z.of_nat (length files) - index initial))
        with (S (length rest)) by (simpl; lia).
      cbn [next_loop]. rewrite Hfirst.
      destruct (length rest); cbn [next_loop]; [done|by rewrite Hsecond]. }
    unfold compressBatch. rewrite Hnext. cbn [foldl].
    rewrite (settle_pick_single _ _ _ _ _ _ pick
               {| task_file := path;
                  task_progress := {| progress_index := 1;
                                      progress_total := Z.of_nat (length files) |} |})
      by done.
    unfold settle_pick. cbn [scheduler storage history].
    change (active (admit_next files initial))
      with [{| task_file := path;
               task_progress := {| progress_index := 1;
                                   progress_total := Z.of_nat (length files) |} |}].
    cbn [length Nat.modulo Nat.divmod fst snd Nat.sub lookup list_lookup
         task_file task_progress progress_index].
    rewrite Himage.
    2:{ unfold maxAttempts_of, JS.or_number. destruct (budget retries =? 0) eqn:E; lia. }
    cbn [inv_fs inv_out inv_trace settle app]. by apply run_idle.
Qed.

(** C4: the missed case.  On the empty list the loop of [next] does not
    run and no callback ever does: the scheduler stays in its initial
    state and [resolve] is never called, for every limit, every budget and
    every schedule. *)
Theorem empty_batch_never_resolves (apiKey : string) (maxConcurrency retries : option Z) :
  (forall s, reachable [] apiKey maxConcurrency retries s <-> s = initial)
  /\ forall network fs schedule,
       resolved (scheduler (compressBatch [] apiKey maxConcurrency retries
                              network fs schedule)) = [].
Proof.
  split.
  - intros s. split; [by apply reachable_empty|]. intros ->. apply rtc_refl.
  - intros network fs schedule.
    by rewrite (reachable_empty [] apiKey maxConcurrency retries _ eq_refl
                  (compressBatch_reachable [] apiKey maxConcurrency retries network
                     fs schedule)).
Qed.

(** C5.  When every attempt fails with a retryable error, [compressImage]
    with a budget of [retries] makes exactly the attempts 1 to
    [retries + 1], waits [a] seconds after the failure of each attempt [a]
    but the last, and is fulfilled with the result of the last attempt. *)
Theorem retry_bound (path apiKey : string) (progress : option Progress) (retries : Z)
    (net : Z -> Exchange) (fs : Storage) :
  0 <= retries ->
  (forall a, 1 <= a <= retries + 1 ->
     exists fs' r, compressOnce fs path apiKey (net a) = Fulfilled (fs', r)
                   /\ success r = false /\ retryable r = true) ->
  exists r,
    compressOnce fs path apiKey (net (retries + 1)) = Fulfilled (fs, r)
    /\ inv_out (compressImage path apiKey progress (Some retries) net fs)
       = Fulfilled (Some r)
    /\ attempts_made (inv_trace (compressImage path apiKey progress (Some retries) net fs))
       = seqZ 1 (retries + 1)
    /\ sleeps (inv_trace (compressImage path apiKey progress (Some retries) net fs))
       = (fun a => a * 1000) <$> seqZ 1 retries
    /\ timeline (inv_trace (compressImage path apiKey progress (Some retries) net fs))
       = (seqZ 1 retries ≫= fun a => [Attempt a; Sleep (a * 1000)])
         ++ [Attempt (retries + 1)].
Proof.
  intros Hr Hall. unfold compressImage.
  assert (maxAttempts_of (Some retries) = retries + 1) as ->.
  { unfold maxAttempts_of, JS.or_number. destruct (retries =? 0) eqn:E; lia. }
  rewrite seqZ_snoc by done.
  destruct (attempts_all_retryable path apiKey progress (retries + 1) net fs
              (seqZ 1 retries) None) as (r & E & Hout & _ & Htl).
  - intros a Ha.
    destruct (Hall a) as (fs' & r & E & Hs & Hretry).
    { apply elem_of_app in Ha as [Ha%elem_of_seqZ| ->%list_elem_of_singleton]; lia. }
    destruct (compressOnce_inv _ _ _ _ _ _ E) as (content & _ & Hcase).
    destruct (attempt_case_failed _ _ _ _ _ _ Hcase Hs) as [-> _]. eauto.
  - rewrite elem_of_seqZ. lia.
  - exists r. repeat split; try done.
    + by rewrite <- attempts_made_timeline, Htl, attempts_made_backoff.
    + by rewrite <- sleeps_timeline, Htl, sleeps_backoff.
Qed.

(** C6.  A failed attempt is not retryable exactly when the service
    answered the upload with status 401 or 415; every other failure is
    retryable, the request errors and the download errors included.  When
    the first attempt fails and is not retryable, [compressImage] makes
    that one attempt only, whatever the budget. *)
Theorem failure_classification (path apiKey : string) (fs fs1 : Storage)
    (x : Exchange) (r : AttemptResult) :
  compressOnce fs path apiKey x = Fulfilled (fs1, r) ->
  success r = false ->
  (retryable r = false <->
     exists statusCode location body download,
       x = ResponseEnd statusCode location body download
       /\ (statusCode = 401 \/ statusCode = 415))
  /\ (retryable r = false ->
      forall progress retries net,
        net 1 = x -> 1 <= maxAttempts_of retries ->
        attempts_made (inv_trace (compressImage path apiKey progress retries net fs)) = [1]
        /\ inv_out (compressImage path apiKey progress retries net fs)
           = Fulfilled (Some r)).
Proof.
  intros E Hs. split.
  - destruct (compressOnce_inv _ _ _ _ _ _ E) as (content & _ & Hcase).
    destruct Hcase as [| | statusCode location body download Hrefused |];
      simpl in *; try discriminate.
    + split; [done|]. intros (? & ? & ? & ? & [= -> _ _ _] & [?|?]); lia.
    + rewrite negb_false_iff, NON_RETRYABLE_STATUS_has_spec. split.
      * intros H. by eexists _, _, _, _.
      * by intros (? & ? & ? & ? & [= -> _ _ _] & ?).
    + split; [done|]. by intros (? & ? & ? & ? & [=] & _).
  - intros Hretry progress retries net Hnet Hmax. unfold compressImage.
    rewrite seqZ_cons by lia.
    rewrite (attempts_final _ _ _ _ _ _ _ _ _ fs1 r); [done|by rewrite Hnet|done|].
    by rewrite Hretry.
Qed.

(** C7.  An Outcome has [success = true] only if the last attempt was
    accepted by the service (status 201 with a location) and the bytes
    fetched from that location, whatever the status of that response,
    were written to the file: the file then holds exactly these bytes and
    [newSize] is their number.  When the Outcome is a failure the storage
    is as it was and [newSize = oldSize]. *)
Theorem success_means_overwritten (path apiKey : string) (progress : option Progress)
    (retries : option Z) (net : Z -> Exchange) (fs : Storage) (r : AttemptResult) :
  inv_out (compressImage path apiKey progress retries net fs) = Fulfilled (Some r) ->
  file r = path
  /\ (success r = true ->
      exists a statusCode location body imgStatus imgData,
        last (attempts_made (inv_trace (compressImage path apiKey progress retries net fs)))
        = Some a
        /\ net a = ResponseEnd statusCode location body (DownloadEnd imgStatus imgData)
        /\ statusCode = 201 /\ JS.truthy_string location = true
        /\ inv_fs (compressImage path apiKey progress retries net fs)
           = <[path := imgData]> fs
        /\ inv_fs (compressImage path apiKey progress retries net fs) !! path
           = Some imgData
        /\ newSize r = Z.of_nat (length imgData))
  /\ (success r = false ->
      inv_fs (compressImage path apiKey progress retries net fs) = fs
      /\ newSize r = oldSize r).
Proof.
  unfold compressImage. intros Hout.
  apply attempts_inv in Hout as [Hfile Hcase]; [|intros r0 [=]].
  split; [done|].
  destruct Hcase as [a statusCode location body imgStatus imgData
                       Hs Hlast Hnet Hst Hloc Hfs Hnew
                    | (Hs & Hsize & _) Hfs].
  - split; [|congruence]. intros _.
    exists a, statusCode, location, body, imgStatus, imgData.
    repeat split; try done. rewrite Hfs. apply lookup_insert_eq.
  - split; [congruence|done].
Qed.

(** C8.  The summary of a list of Outcomes has the sum of the [oldSize]
    fields, the sum of the [newSize] fields and the number of Outcomes
    with [success = false]; this is what [compressBatch] resolves with.
    For the Outcomes of sizes 1000 to 500 and 2000 to 2000, the second
    failed, the summary is 3000, 2500 and 1, and [printSummary] reports
    16.67%. *)
Theorem summary_correctness :
  (forall rs,
     summarise (Some <$> rs)
     = Some {| totalOldSize := sumZ (oldSize <$> rs);
               totalNewSize := sumZ (newSize <$> rs);
               failCount := Z.of_nat (length (filter (fun r => negb (success r)) rs));
               summary_results := rs |})
  /\ (forall files apiKey maxConcurrency retries s summary,
        reachable files apiKey maxConcurrency retries s ->
        summary ∈ resolved s ->
        summarise (results s) = Some summary)
  /\ summarise (Some <$> example_outcomes)
     = Some {| totalOldSize := 3000; totalNewSize := 2500; failCount := 1;
               summary_results := example_outcomes |}
  /\ savedPercent 3000 2500 = JS.Str "16.67"
  /\ last (printSummary 3000 2500 2 1) = Some (color "Ratio:  16.67%" "1;34").
Proof.
  split; [exact summarise_Some|]. split.
  { intros files apiKey maxConcurrency retries s summary Hs Hin.
    by destruct (resolved_spec _ _ _ _ s summary Hs Hin) as (_ & Hsum & _). }
  split; [by rewrite summarise_Some|].
  assert (savedPercent 3000 2500 = JS.Str "16.67") as Hpercent by (by vm_compute).
  split; [done|]. unfold printSummary. by rewrite Hpercent.
Qed.

(** C9.  When [totalOldSize] is 0 the division is not made: the
    percentage is the number 0, and [printSummary] reports 0%, for every
    [totalNewSize]. *)
Theorem percent_guard (totalNewSize fileCount failCount : Z) :
  savedPercent 0 totalNewSize = JS.Number 0
  /\ last (printSummary 0 totalNewSize fileCount failCount)
     = Some (color "Ratio:  0%" "1;34").
Proof. split; reflexivity. Qed.

(** C10.  With [retries] omitted, or 0, [compressImage] makes exactly one
    attempt, whatever the service does; the default of 3 is that of
    [compressBatch], whose invocations all run with a budget of 3 when its
    own [retries] is omitted. *)
Theorem default_single_attempt (path apiKey : string) (progress : option Progress)
    (net : Z -> Exchange) (fs : Storage) :
  maxAttempts_of None = 1
  /\ maxAttempts_of (Some 0) = 1
  /\ attempts_made (inv_trace (compressImage path apiKey progress None net fs)) = [1]
  /\ compressImage path apiKey progress (Some 0) net fs
     = compressImage path apiKey progress None net fs
  /\ budget None = 3
  /\ forall files maxConcurrency network fs0 schedule t trace,
       (t, trace) ∈ history (compressBatch files apiKey maxConcurrency None
                               network fs0 schedule) ->
       exists fs',
         trace = inv_trace (compressImage (task_file t) apiKey (Some (task_progress t))
                              (Some 3) (network (progress_index (task_progress t))) fs').
Proof.
  repeat split; try reflexivity.
  - unfold compressImage. change (maxAttempts_of None) with 1.
    change (seqZ 1 1) with [1].
    destruct (compressOnce fs path apiKey (net 1)) as [[fs1 r]|e] eqn:E.
    + destruct (success r) eqn:Hs.
      * by rewrite (attempts_success _ _ _ _ _ _ _ _ _ _ _ E Hs).
      * rewrite (attempts_final _ _ _ _ _ _ _ _ _ _ _ E Hs); [done|].
        apply orb_true_r.
    + by rewrite (attempts_rejected _ _ _ _ _ _ _ _ _ _ E).
  - intros files maxConcurrency network fs0 schedule t trace Hin.
    apply run_history in Hin as [Hin|Hin]; [|exact Hin].
    by apply elem_of_nil in Hin.
Qed.

(** * Further properties *)

(** ** [compressImage] *)

(** X1.  Whatever the service answers, [compressImage] makes the attempts
    1, 2, ..., [k] one after the other and never more than
    [maxAttempts = (retries || 0) + 1] of them; every attempt before the
    last one made was a retryable failure that left the storage as it
    was, and was followed by a wait of as many seconds as its number;
    and when fewer than [maxAttempts] attempts are made, the last one
    did not end in a retryable failure. *)
Theorem attempts_in_sequence (path apiKey : string) (progress : option Progress)
    (retries : option Z) (net : Z -> Exchange) (fs : Storage) :
  exists k,
    0 <= k <= Z.max 0 (maxAttempts_of retries)
    /\ (1 <= maxAttempts_of retries -> 1 <= k)
    /\ attempts_made (inv_trace (compressImage path apiKey progress retries net fs))
       = seqZ 1 k
    /\ sleeps (inv_trace (compressImage path apiKey progress retries net fs))
       = (fun a => a * 1000) <$> seqZ 1 (k - 1)
    /\ (forall a, 1 <= a < k ->
          exists r, compressOnce fs path apiKey (net a) = Fulfilled (fs, r)
                    /\ success r = false /\ retryable r = true)
    /\ (k < maxAttempts_of retries -> forall fs' r,
          compressOnce fs path apiKey (net k) = Fulfilled (fs', r) ->
          success r = true \/ retryable r = false).
Proof.
  unfold compressImage. set (M := maxAttempts_of retries).
  destruct (decide (1 <= M)) as [HM|HM].
  - destruct (attempts_consecutive path apiKey progress M net fs (Z.to_nat (M - 1)) 1 None)
      as (k & Hk & Hmade & Hsleeps & Hbefore & Hlast); [lia|].
    replace (Z.of_nat (S (Z.to_nat (M - 1)))) with M in * by lia.
    replace (k - 1 + 1) with k in * by lia.
    exists k. split; [lia|]. split; [lia|]. done.
  - exists 0. rewrite !seqZ_nil by lia. simpl.
    split; [lia|]. split; [lia|]. do 2 (split; [done|]). split; intros; lia.
Qed.

(** X2.  [compressImage] writes to no path but its own, and a batch
    writes to no path outside its list, whatever the service answers and
    in whatever order the invocations settle. *)
Theorem writes_only_its_files (files : list string) (apiKey : string)
    (maxConcurrency retries : option Z) (network : Z -> Z -> Exchange) (fs : Storage)
    (schedule : list nat) (f : string) :
  (forall path progress tries net,
     f <> path ->
     inv_fs (compressImage path apiKey progress tries net fs) !! f = fs !! f)
  /\ (f ∉ files ->
      storage (compressBatch files apiKey maxConcurrency retries network fs schedule) !! f
      = fs !! f).
Proof.
  split.
  - intros path progress tries net Hf. by apply attempts_frame.
  - intros Hf. unfold compressBatch.
    rewrite run_frame; [done| |done].
    cbn [scheduler]. apply next_loop_reachable. apply rtc_refl.
Qed.

(** X3.  The sizes in the result of [compressImage] are measured: [oldSize]
    is the size of the file when the call was made and [newSize] its size
    when the call returns, and [file] is the path given. *)
Theorem sizes_are_measured (path apiKey : string) (progress : option Progress)
    (retries : option Z) (net : Z -> Exchange) (fs : Storage) (r : AttemptResult) :
  inv_out (compressImage path apiKey progress retries net fs) = Fulfilled (Some r) ->
  file r = path
  /\ statSync_size fs path = Some (oldSize r)
  /\ statSync_size (inv_fs (compressImage path apiKey progress retries net fs)) path
     = Some (newSize r).
Proof.
  intros Hout. split; [by eapply compressImage_file|].
  unfold compressImage in *. eapply attempts_sizes; [|exact Hout]. intros r0 [=].
Qed.

(** X21.  An invocation of [compressImage] that returns a result has
    logged exactly one line per attempt: for each attempt before the last
    the warning that it is retried, with the number of the attempt, the
    maximum, the error message of that attempt and the seconds waited,
    and for the last attempt the line of the result, that of a success
    with what was saved or that of a failure with its message. *)
Theorem one_line_per_attempt (path apiKey : string) (progress : option Progress)
    (retries : option Z) (net : Z -> Exchange) (fs : Storage) (r : AttemptResult) :
  inv_out (compressImage path apiKey progress retries net fs) = Fulfilled (Some r) ->
  exists retried,
    logs (inv_trace (compressImage path apiKey progress retries net fs))
    = retried ++ [outcome_line progress path r]
    /\ length (logs (inv_trace (compressImage path apiKey progress retries net fs)))
       = length (attempts_made (inv_trace (compressImage path apiKey progress retries
                                             net fs)))
    /\ Forall2 (fun a line =>
                  exists r0, compressOnce fs path apiKey (net a) = Fulfilled (fs, r0)
                             /\ success r0 = false /\ retryable r0 = true
                             /\ line = Retrying progress a (maxAttempts_of retries) path
                                        (errorMsg r0) a)
         (seqZ 1 (Z.of_nat (length retried))) retried.
Proof.
  unfold compressImage. set (M := maxAttempts_of retries).
  destruct (decide (1 <= M)) as [HM|HM].
  2:{ by rewrite seqZ_nil by lia. }
  intros Hout.
  assert (Z.of_nat (S (Z.to_nat (M - 1))) = M) as Hn by lia.
  destruct (attempts_logs path apiKey progress M net fs (Z.to_nat (M - 1)) 1 None r)
    as (retried & Hlogs & Hmade & Hall); [lia|by rewrite Hn|].
  rewrite Hn in Hlogs, Hmade.
  exists retried. split; [exact Hlogs|]. split; [|exact Hall].
  rewrite Hlogs, Hmade, length_app, length_seqZ. simpl. lia.
Qed.

(** X4.  A negative [retries] makes [maxAttempts] at most 0: the loop of
    [compressImage] does not run, no request is made, and the promise is
    fulfilled with [undefined].  A batch given such a budget only ever
    collects [undefined] results and never resolves. *)
Theorem negative_retries (files : list string) (apiKey : string)
    (maxConcurrency : option Z) (retries : Z) :
  retries < 0 ->
  (forall path progress net fs,
     compressImage path apiKey progress (Some retries) net fs
     = {| inv_fs := fs; inv_trace := []; inv_out := Fulfilled None |})
  /\ (forall s, reachable files apiKey maxConcurrency (Some retries) s ->
        resolved s = [] /\ forall result, result ∈ results s -> result = None)
  /\ forall network fs schedule,
       resolved (scheduler (compressBatch files apiKey maxConcurrency (Some retries)
                              network fs schedule)) = [].
Proof.
  intros Hneg.
  assert (maxAttempts_of (Some retries) <= 0) as HM.
  { unfold maxAttempts_of, JS.or_number. destruct (retries =? 0) eqn:E; lia. }
  split; [|split].
  - intros path progress net fs. unfold compressImage. by rewrite seqZ_nil by lia.
  - intros s Hs. by apply (reachable_negative files apiKey maxConcurrency (Some retries)).
  - intros network fs schedule.
    apply (reachable_negative files apiKey maxConcurrency (Some retries)); [done|].
    apply compressBatch_reachable.
Qed.

(** X5.  One file of the list that cannot be read is enough for the batch
    never to resolve, in whatever order the invocations settle and
    whatever the service answers: the invocation of that file never gives
    a result, and nothing creates the file. *)
Theorem unreadable_file_starves (files : list string) (apiKey : string)
    (maxConcurrency retries : option Z) (network : Z -> Z -> Exchange) (fs : Storage)
    (schedule : list nat) (f : string) :
  f ∈ files -> fs !! f = None ->
  resolved (scheduler (compressBatch files apiKey maxConcurrency retries network fs
                         schedule)) = []
  /\ (forall r,
        Some r ∈ results (scheduler (compressBatch files apiKey maxConcurrency retries
                                       network fs schedule)) ->
        file r <> f)
  /\ storage (compressBatch files apiKey maxConcurrency retries network fs schedule) !! f
     = None.
Proof.
  intros Hf Hmissing.
  assert (starved files apiKey maxConcurrency retries f
            (compressBatch files apiKey maxConcurrency retries network fs schedule))
    as Hw.
  { apply starved_run. split; cbn [scheduler storage].
    - apply next_loop_reachable. apply rtc_refl.
    - done.
    - intros r. rewrite next_results. simpl. by intros ?%elem_of_nil. }
  split; [by eapply starved_never_resolves|]. by destruct Hw.
Qed.

(** ** [compressBatch] *)

(** X6.  Every limit that is at least the number of files gives the same
    batch: the same storage, the same results in the same order, the
    same invocations with the same attempts, for every behaviour of the
    service and every order in which the invocations settle. *)
Theorem limit_beyond_file_count (files : list string) (apiKey : string)
    (K K' retries : option Z) (network : Z -> Z -> Exchange) (fs : Storage)
    (schedule : list nat) :
  Z.of_nat (length files) <= limit K ->
  Z.of_nat (length files) <= limit K' ->
  compressBatch files apiKey K retries network fs schedule
  = compressBatch files apiKey K' retries network fs schedule.
Proof.
  intros HK HK'. apply compressBatch_ext. intros s Hs.
  by rewrite !guard_roomy.
Qed.

(** X7.  A limit that is omitted, or 0, is a limit of 5.  A negative
    limit is kept as it is: the condition of the [while] of [next] never
    holds, no file is ever started and the batch never resolves. *)
Theorem limit_edge_cases (files : list string) (apiKey : string) (retries : option Z) :
  (forall network fs schedule,
     compressBatch files apiKey None retries network fs schedule
     = compressBatch files apiKey (Some 5) retries network fs schedule
     /\ compressBatch files apiKey (Some 0) retries network fs schedule
        = compressBatch files apiKey (Some 5) retries network fs schedule)
  /\ (forall K s,
        K < 0 -> reachable files apiKey (Some K) retries s -> s = initial)
  /\ (forall K network fs schedule,
        K < 0 ->
        compressBatch files apiKey (Some K) retries network fs schedule
        = {| storage := fs; scheduler := initial; history := [] |}).
Proof.
  assert (forall K, K < 0 -> limit (Some K) <= 0) as Hneg.
  { intros K HK. unfold limit, JS.or_number. destruct (K =? 0) eqn:E; lia. }
  split; [|split].
  - intros network fs schedule. split; by apply compressBatch_ext.
  - intros K s HK Hs. eapply reachable_closed; [|exact Hs]. by apply Hneg.
  - intros K network fs schedule HK.
    assert (next files (Some K) initial = initial) as Hnext.
    { eapply reachable_closed; [by apply Hneg|].
      apply (next_loop_reachable files apiKey (Some K) retries). apply rtc_refl. }
    unfold compressBatch. rewrite Hnext. by apply run_idle.
Qed.

(** X8.  At every instant of a batch, the progress label of an
    invocation is the position of its file in the list, counted from 1,
    out of the number of files: labels are given in the order of the
    list, whatever the order in which the invocations settle. *)
Theorem progress_labels (files : list string) (apiKey : string)
    (maxConcurrency retries : option Z) (s : Scheduler) (t : Task) :
  reachable files apiKey maxConcurrency retries s ->
  t ∈ active s ->
  exists i : nat,
    admitted s !! i = Some t
    /\ files !! i = Some (task_file t)
    /\ task_progress t
       = {| progress_index := Z.of_nat i + 1;
            progress_total := Z.of_nat (length files) |}.
Proof.
  intros Hs Ht.
  destruct (reachable_labels _ _ _ _ _ Hs) as [_ Hadm].
  apply Hadm, list_elem_of_lookup in Ht as [i Hi].
  exists i. split; [done|]. by eapply admitted_label.
Qed.

(** X9.  What a batch reports as saved comes from the files that were
    compressed: the difference of the two totals of the summary is the
    sum of [oldSize - newSize] over the successful results, a failed
    file counting for nothing. *)
Theorem savings_come_from_successes (files : list string) (apiKey : string)
    (maxConcurrency retries : option Z) (s : Scheduler) (summary : BatchSummary) :
  reachable files apiKey maxConcurrency retries s ->
  summary ∈ resolved s ->
  totalOldSize summary - totalNewSize summary
  = sumZ ((fun r => oldSize r - newSize r)
            <$> filter (fun r => success r) (summary_results summary)).
Proof.
  intros Hs Hin.
  destruct (resolved_spec _ _ _ _ s summary Hs Hin) as (_ & Hsum & _).
  destruct (summarise_inv _ _ Hsum) as (Hres & -> & -> & _).
  apply sum_savings. apply Forall_forall. intros r Hr Hfail.
  destruct (reachable_results _ _ _ _ _ (Some r) Hs) as [t Hout].
  { rewrite Hres. by apply list_elem_of_fmap_2. }
  by destruct (possible_outcome_failed _ _ _ _ Hout Hfail) as (_ & ? & _).
Qed.

(** X10.  The totals of the summary do not depend on the order in which
    the results were pushed: two orders of the same results give the same
    [totalOldSize], [totalNewSize] and [failCount]. *)
Theorem summary_order_independent (rs1 rs2 : list AttemptResult) :
  rs1 ≡ₚ rs2 ->
  exists s1 s2,
    summarise (Some <$> rs1) = Some s1 /\ summarise (Some <$> rs2) = Some s2
    /\ summary_results s1 = rs1 /\ summary_results s2 = rs2
    /\ totalOldSize s1 = totalOldSize s2 /\ totalNewSize s1 = totalNewSize s2
    /\ failCount s1 = failCount s2.
Proof.
  intros Hperm. eexists _, _.
  split; [apply summarise_Some|]. split; [apply summarise_Some|].
  do 2 (split; [done|]).
  eapply summarise_Permutation; [exact Hperm|apply summarise_Some..].
Qed.

(** X11.  When the files can be read, the limit is at least 1 and the
    budget at least 0, no slot stays free while a file waits: between two
    callbacks the number of pending invocations is the smaller of the
    limit and the number of files without a result, and [running] counts
    exactly the pending invocations. *)
Theorem work_conserving (files : list string) (apiKey : string)
    (maxConcurrency retries : option Z) (network : Z -> Z -> Exchange) (fs : Storage)
    (schedule : list nat) :
  (forall f, f ∈ files -> is_Some (fs !! f)) ->
  1 <= limit maxConcurrency ->
  0 <= budget retries ->
  running (scheduler (compressBatch files apiKey maxConcurrency retries network fs
                        schedule))
  = Z.min (limit maxConcurrency)
      (Z.of_nat (length files)
       - Z.of_nat (length (results (scheduler (compressBatch files apiKey maxConcurrency
                                                 retries network fs schedule)))))
  /\ Z.of_nat (length (active (scheduler (compressBatch files apiKey maxConcurrency
                                            retries network fs schedule))))
     = running (scheduler (compressBatch files apiKey maxConcurrency retries network fs
                             schedule)).
Proof.
  intros Hfs HK Hbudget.
  destruct (decide (files = [])) as [->|Hne].
  { rewrite compressBatch_empty. simpl. lia. }
  apply (healthy_conserving files apiKey maxConcurrency retries); [done|].
  apply healthy_run_any; [done..|]. by apply healthy_initial.
Qed.

(** X12.  When the files of a non-empty list can be read, the limit is at
    least 1 and the budget at least 0, every invocation that settles adds
    one result, and the batch resolves with the last of them, neither
    before nor after: [resolve] has been called exactly when as many
    invocations have settled as there are files, and nothing happens
    after that. *)
Theorem resolves_with_the_last_result (files : list string) (apiKey : string)
    (maxConcurrency retries : option Z) (network : Z -> Z -> Exchange) (fs : Storage)
    (schedule : list nat) :
  files <> [] ->
  (forall f, f ∈ files -> is_Some (fs !! f)) ->
  1 <= limit maxConcurrency ->
  0 <= budget retries ->
  length (results (scheduler (compressBatch files apiKey maxConcurrency retries network
                                fs schedule)))
  = Nat.min (length schedule) (length files)
  /\ (resolved (scheduler (compressBatch files apiKey maxConcurrency retries network fs
                             schedule)) <> []
      <-> (length files <= length schedule)%nat)
  /\ forall more,
       (length files <= length schedule)%nat ->
       compressBatch files apiKey maxConcurrency retries network fs (schedule ++ more)
       = compressBatch files apiKey maxConcurrency retries network fs schedule.
Proof.
  intros Hne Hfs HK Hbudget.
  pose proof (healthy_initial files apiKey maxConcurrency retries fs Hne Hfs) as H0.
  pose proof (healthy_progress files apiKey maxConcurrency retries network schedule _
                HK Hbudget H0) as Hlen.
  pose proof (healthy_run_any files apiKey maxConcurrency retries network schedule _
                HK Hbudget H0) as Hw.
  fold (compressBatch files apiKey maxConcurrency retries network fs schedule) in *.
  cbn [scheduler] in Hlen. rewrite next_results in Hlen. simpl in Hlen.
  split; [exact Hlen|].
  destruct Hw as [Hr _ Hb _ _ Hres].
  assert ((length files <= length schedule)%nat ->
          length (results (scheduler (compressBatch files apiKey maxConcurrency retries
                                        network fs schedule))) = length files) as Hall.
  { intros Hle. lia. }
  split; [split|].
  - intros Hdone.
    apply (resolved_complete files apiKey maxConcurrency retries) in Hdone; [|done]. lia.
  - intros Hle. apply Hres. unfold total. rewrite (Hall Hle). done.
  - intros more Hle. unfold compressBatch at 1. rewrite foldl_app.
    fold (compressBatch files apiKey maxConcurrency retries network fs schedule).
    apply run_idle. apply length_zero_iff_nil.
    destruct (reachable_invariant _ _ _ _ _ Hr). specialize (Hall Hle).
    unfold total in *. lia.
Qed.

(** X13.  When the files can be read, the limit is at least 1 and the
    budget at least 0, every result of a batch is defined and the results
    are in the order in which the invocations settled, not in the order
    of the list: the result at a position is that of the file of the
    invocation that settled at that position. *)
Theorem results_in_completion_order (files : list string) (apiKey : string)
    (maxConcurrency retries : option Z) (network : Z -> Z -> Exchange) (fs : Storage)
    (schedule : list nat) :
  (forall f, f ∈ files -> is_Some (fs !! f)) ->
  1 <= limit maxConcurrency ->
  0 <= budget retries ->
  Forall is_Some (results (scheduler (compressBatch files apiKey maxConcurrency retries
                                        network fs schedule)))
  /\ omap (fmap file) (results (scheduler (compressBatch files apiKey maxConcurrency
                                             retries network fs schedule)))
     = (fun h => task_file h.1)
         <$> history (compressBatch files apiKey maxConcurrency retries network fs
                        schedule).
Proof.
  intros Hfs HK Hbudget.
  destruct (decide (files = [])) as [->|Hne].
  { rewrite compressBatch_empty. by split. }
  pose proof (healthy_initial files apiKey maxConcurrency retries fs Hne Hfs) as H0.
  split.
  - by destruct (healthy_run_any files apiKey maxConcurrency retries network schedule _
                   HK Hbudget H0).
  - apply chronicle_run; [done..|]. cbn [scheduler history]. by rewrite next_results.
Qed.

(** X14.  When the files of the list are pairwise distinct, at no instant
    of the batch are two pending invocations for the same file, and no
    file with a result has a pending invocation or a second result. *)
Theorem one_invocation_per_file (files : list string) (apiKey : string)
    (maxConcurrency retries : option Z) (s : Scheduler) :
  NoDup files ->
  reachable files apiKey maxConcurrency retries s ->
  NoDup (task_file <$> active s)
  /\ NoDup (omap (fmap file) (results s))
  /\ forall t r, t ∈ active s -> Some r ∈ results s -> file r <> task_file t.
Proof.
  intros Hnd Hs.
  apply (reachable_NoDup _ _ _ _ _ Hnd) in Hs.
  apply NoDup_app in Hs as (Hres & Hdisj & Hact).
  split; [done|]. split; [done|].
  intros t r Ht Hr Heq. apply (Hdisj (file r)).
  - apply list_elem_of_omap. by exists (Some r).
  - rewrite Heq. by apply list_elem_of_fmap_2.
Qed.

(** ** [dedupe] *)

(** X15.  [dedupe] keeps every path of the list once, at its first
    occurrence: the result has no duplicates and the same members, in
    the order of the list; a list without duplicates is returned as it
    is, and the result is empty only for the empty list. *)
Theorem dedupe_first_occurrences (files : list string) :
  NoDup (dedupe files)
  /\ (forall f, f ∈ dedupe files <-> f ∈ files)
  /\ dedupe files `sublist_of` files
  /\ (forall f rest,
        files = f :: rest ->
        dedupe files = f :: filter (fun y => y <> f) (dedupe rest))
  /\ (NoDup files -> dedupe files = files)
  /\ dedupe (dedupe files) = dedupe files
  /\ (dedupe files = [] <-> files = []).
Proof.
  split; [apply dedupe_NoDup|]. split; [apply dedupe_elem_of|].
  split; [apply dedupe_sublist|]. split; [intros f rest ->; apply dedupe_cons|].
  split; [apply dedupe_id|]. split; [apply dedupe_id, dedupe_NoDup|].
  split; [|by intros ->].
  destruct files as [|f rest]; [done|]. by rewrite dedupe_cons.
Qed.

(** X16.  A batch run on the deduplicated list, as [handleCompress] runs
    it, resolves with exactly one Outcome for every path that was asked
    for, however many times it was given, and with no Outcome for
    another path. *)
Theorem deduped_batch (paths : list string) (apiKey : string)
    (maxConcurrency retries : option Z) (s : Scheduler) (summary : BatchSummary) :
  reachable (dedupe paths) apiKey maxConcurrency retries s ->
  summary ∈ resolved s ->
  (length (summary_results summary) <= length paths)%nat
  /\ (forall f, f ∈ paths ->
        length (filter (fun r => file r = f) (summary_results summary)) = 1%nat)
  /\ forall r, r ∈ summary_results summary -> file r ∈ paths.
Proof.
  intros Hs Hin.
  destruct (resolved_spec _ _ _ _ s summary Hs Hin) as (_ & _ & Hlen & Hperm & _).
  split; [|split].
  - rewrite Hlen. apply sublist_length, dedupe_sublist.
  - intros f Hf. apply filter_file_NoDup.
    + rewrite Hperm. apply dedupe_NoDup.
    + rewrite Hperm. by apply dedupe_elem_of.
  - intros r Hr. apply dedupe_elem_of. rewrite <- Hperm. by apply list_elem_of_fmap_2.
Qed.

End Engine.

(** * [lib/config.js] *)

Section Resolution.
Import Config.
Variable JSON_parse : string -> option Json.
Variable trim : string -> string.
Variable path_join : string -> string -> string.
Variables (GLOBAL_CONFIG_PATH process_cwd : string).

Lemma has_apiKey_object candidate :
  has_apiKey candidate = true ->
  exists fields, candidate = JObject fields /\ truthy (field "apiKey" fields) = true.
Proof.
  unfold has_apiKey. intros [_ Hkey]%andb_true_iff.
  destruct candidate; try done. by eexists.
Qed.

Lemma has_apiKey_truthy candidate :
  has_apiKey candidate = true -> truthy (Some candidate) = true.
Proof. unfold has_apiKey. by intros [? _]%andb_true_iff. Qed.

(** The file chosen: the first of the three with a key. *)
Lemma fileConfig_of_cases fs dir :
  let P := readProjectConfig JSON_parse trim path_join fs dir in
  let K := readPackageJsonConfig JSON_parse trim path_join fs dir in
  let G := readGlobalConfig JSON_parse trim GLOBAL_CONFIG_PATH fs in
  (has_apiKey P = true
   /\ fileConfig_of JSON_parse trim path_join GLOBAL_CONFIG_PATH fs dir
      = (P, "project (.tinypngrc)"))
  \/ (has_apiKey P = false /\ has_apiKey K = true
      /\ fileConfig_of JSON_parse trim path_join GLOBAL_CONFIG_PATH fs dir
         = (K, "project (package.json)"))
  \/ (has_apiKey P = false /\ has_apiKey K = false /\ has_apiKey G = true
      /\ fileConfig_of JSON_parse trim path_join GLOBAL_CONFIG_PATH fs dir
         = (G, "global (~/.tinypngrc)"))
  \/ (has_apiKey P = false /\ has_apiKey K = false /\ has_apiKey G = false
      /\ fileConfig_of JSON_parse trim path_join GLOBAL_CONFIG_PATH fs dir
         = (JNull, EmptyString)).
Proof.
  intros P K G. unfold fileConfig_of. fold P K G. clearbody P K G.
  destruct (has_apiKey P) eqn:HP; cbv beta iota.
  { left. split; [done|]. pose proof (has_apiKey_truthy _ HP) as Ht.
    rewrite Ht. cbv beta iota. cbn [negb]. by rewrite Ht. }
  right. change (negb (truthy (Some JNull))) with true. cbv beta iota.
  destruct (has_apiKey K) eqn:HK; cbv beta iota.
  { left. do 2 (split; [done|]). by rewrite (has_apiKey_truthy _ HK). }
  right. change (negb (truthy (Some JNull))) with true. cbv beta iota.
  destruct (has_apiKey G) eqn:HG.
  { left. by do 3 (split; [done|]). }
  right. by do 3 (split; [done|]).
Qed.

(** Reading a key that was just set, and another one. *)
Lemma field_set_field key value fields :
  field key (set_field key value fields) = Some value.
Proof.
  induction fields as [|[k v] fields IH]; simpl.
  - by rewrite String.eqb_refl.
  - destruct (String.eqb k key) eqn:E; simpl; rewrite E; done.
Qed.

Lemma field_set_field_ne key key' value fields :
  key' <> key -> field key' (set_field key value fields) = field key' fields.
Proof.
  intros Hne. induction fields as [|[k v] fields IH]; simpl.
  - destruct (String.eqb key key') eqn:E; [|done].
    apply String.eqb_eq in E. congruence.
  - destruct (String.eqb k key) eqn:E; simpl.
    + apply String.eqb_eq in E as ->.
      destruct (String.eqb key key') eqn:E'; [|done].
      apply String.eqb_eq in E'. congruence.
    + by rewrite IH.
Qed.

Lemma normalizeConfig_key raw source0 :
  has_apiKey raw = true ->
  truthy (apiKey (normalizeConfig raw source0)) = true
  /\ truthy (Some (maxConcurrency (normalizeConfig raw source0))) = true.
Proof.
  intros Hkey. split.
  - unfold has_apiKey in Hkey. by apply andb_true_iff in Hkey as [_ ?].
  - cbn [normalizeConfig maxConcurrency].
    destruct (get raw "maxConcurrency") as [v|]; [|reflexivity].
    destruct (truthy (Some v)) eqn:E; [exact E|reflexivity].
Qed.

Lemma readJsonConfig_delete fs p q :
  readJsonConfig JSON_parse trim (delete p fs) q
  = if decide (p = q) then JNull else readJsonConfig JSON_parse trim fs q.
Proof.
  unfold readJsonConfig. destruct (decide (p = q)) as [->|Hne].
  - by rewrite lookup_delete_eq.
  - by rewrite lookup_delete_ne.
Qed.

Lemma readJsonConfig_agree fs fs' p :
  fs !! p = fs' !! p ->
  readJsonConfig JSON_parse trim fs p = readJsonConfig JSON_parse trim fs' p.
Proof. unfold readJsonConfig. by intros ->. Qed.

(** The result, from the file chosen. *)
Lemma getConfig_cases fs envKey projectDir :
  getConfig JSON_parse trim path_join GLOBAL_CONFIG_PATH process_cwd fs envKey projectDir
  = let chosen := fileConfig_of JSON_parse trim path_join GLOBAL_CONFIG_PATH fs
                    (cwd process_cwd projectDir) in
    if JS.truthy_string envKey then
      Fulfilled (normalizeConfig
                   (JObject (set_field "apiKey" (JString (default EmptyString envKey))
                               match chosen.1 with JObject fields => fields | _ => [] end))
                   "env (TINYPNG_API_KEY)")
    else if truthy (Some chosen.1) then Fulfilled (normalizeConfig chosen.1 chosen.2)
    else Rejected API_KEY_NOT_FOUND.
Proof.
  unfold getConfig. cbv zeta.
  destruct (fileConfig_of _ _ _ _ _ _) as [fileConfig fileSource].
  destruct envKey as [key|]; [|done]. simpl.
  by destruct (String.eqb key EmptyString).
Qed.

(** X17.  [getConfig] throws exactly when there is no key at all: the
    environment variable is unset or empty and none of the project
    [.tinypngrc], the [tinypng] entry of [package.json] and the global
    [.tinypngrc] has a truthy [apiKey]; the error is the one that lists
    the four ways to give a key.  Whenever it returns, the [apiKey] of
    the result is truthy, its [maxConcurrency] is truthy, and its source
    is one of the four. *)
Theorem getConfig_needs_a_key (fs : gmap string string) (envKey projectDir : option string) :
  ((exists msg,
      getConfig JSON_parse trim path_join GLOBAL_CONFIG_PATH process_cwd fs envKey
        projectDir = Rejected msg)
   <-> JS.truthy_string envKey = false
       /\ has_apiKey (readProjectConfig JSON_parse trim path_join fs
                        (cwd process_cwd projectDir)) = false
       /\ has_apiKey (readPackageJsonConfig JSON_parse trim path_join fs
                        (cwd process_cwd projectDir)) = false
       /\ has_apiKey (readGlobalConfig JSON_parse trim GLOBAL_CONFIG_PATH fs) = false)
  /\ (forall msg,
        getConfig JSON_parse trim path_join GLOBAL_CONFIG_PATH process_cwd fs envKey
          projectDir = Rejected msg ->
        msg = API_KEY_NOT_FOUND)
  /\ forall cfg,
       getConfig JSON_parse trim path_join GLOBAL_CONFIG_PATH process_cwd fs envKey
         projectDir = Fulfilled cfg ->
       truthy (apiKey cfg) = true
       /\ truthy (Some (maxConcurrency cfg)) = true
       /\ source cfg ∈ ["env (TINYPNG_API_KEY)"; "project (.tinypngrc)";
                        "project (package.json)"; "global (~/.tinypngrc)"].
Proof.
  rewrite getConfig_cases. cbv zeta.
  destruct (JS.truthy_string envKey) eqn:Henv.
  { split; [|split].
    - split; [by intros [msg ?]|by intros [? _]].
    - done.
    - intros cfg [= <-]. split; [|split].
      + cbn [normalizeConfig apiKey get]. rewrite field_set_field.
        destruct envKey as [key|]; [done|done].
      + cbn [normalizeConfig maxConcurrency].
        destruct (get _ "maxConcurrency") as [v|]; [|reflexivity].
        destruct (truthy (Some v)) eqn:E; [exact E|reflexivity].
      + apply list_elem_of_here. }
  destruct (fileConfig_of_cases fs (cwd process_cwd projectDir))
    as [(HP & ->)|[(HP & HK & ->)|[(HP & HK & HG & ->)|(HP & HK & HG & ->)]]];
    cbn [fst snd].
  - rewrite (has_apiKey_truthy _ HP). split; [|split].
    + split; [by intros [msg ?]|]. intros (_ & HP' & _). congruence.
    + done.
    + intros cfg [= <-]. destruct (normalizeConfig_key _ "project (.tinypngrc)" HP).
      do 2 (split; [done|]). cbn [normalizeConfig source].
      apply list_elem_of_further, list_elem_of_here.
  - rewrite (has_apiKey_truthy _ HK). split; [|split].
    + split; [by intros [msg ?]|]. intros (_ & _ & HK' & _). congruence.
    + done.
    + intros cfg [= <-]. destruct (normalizeConfig_key _ "project (package.json)" HK).
      do 2 (split; [done|]). cbn [normalizeConfig source].
      do 2 apply list_elem_of_further. apply list_elem_of_here.
  - rewrite (has_apiKey_truthy _ HG). split; [|split].
    + split; [by intros [msg ?]|]. intros (_ & _ & _ & HG'). congruence.
    + done.
    + intros cfg [= <-]. destruct (normalizeConfig_key _ "global (~/.tinypngrc)" HG).
      do 2 (split; [done|]). cbn [normalizeConfig source].
      do 3 apply list_elem_of_further. apply list_elem_of_here.
  - cbn [truthy]. split; [|split].
    + split; [done|]. intros _. by eexists.
    + by intros msg [= <-].
    + done.
Qed.

(** X18.  A key in the environment replaces the key and nothing else:
    the result has that key and the source [env (TINYPNG_API_KEY)], and
    its other settings are those [getConfig] gives without the variable,
    or the defaults 5, 3, [true], [true] when no file has a key. *)
Theorem env_key_replaces_only_the_key (fs : gmap string string) (key : string)
    (projectDir : option string) :
  key <> EmptyString ->
  exists cfg,
    getConfig JSON_parse trim path_join GLOBAL_CONFIG_PATH process_cwd fs (Some key)
      projectDir = Fulfilled cfg
    /\ apiKey cfg = Some (JString key)
    /\ source cfg = "env (TINYPNG_API_KEY)"
    /\ match getConfig JSON_parse trim path_join GLOBAL_CONFIG_PATH process_cwd fs None
               projectDir with
       | Fulfilled cfg0 =>
           maxConcurrency cfg = maxConcurrency cfg0 /\ retries cfg = retries cfg0
           /\ autoStage cfg = autoStage cfg0
           /\ respectGitignore cfg = respectGitignore cfg0
       | Rejected _ =>
           maxConcurrency cfg = JNumber 5 /\ retries cfg = JNumber 3
           /\ autoStage cfg = true /\ respectGitignore cfg = true
       end.
Proof.
  intros Hkey. rewrite !getConfig_cases. cbv zeta.
  assert (JS.truthy_string (Some key) = true) as ->.
  { simpl. by destruct (String.eqb_spec key EmptyString). }
  change (JS.truthy_string None) with false. cbv beta iota.
  eexists. split; [done|]. split.
  { cbn [normalizeConfig apiKey get]. by rewrite field_set_field. }
  split; [done|].
  assert (forall fields name,
            name <> "apiKey" ->
            get (JObject (set_field "apiKey" (JString key) fields)) name
            = get (JObject fields) name) as Hother.
  { intros fields name Hname. cbn [get]. by apply field_set_field_ne. }
  destruct (fileConfig_of_cases fs (cwd process_cwd projectDir))
    as [(H & ->)|[(_ & H & ->)|[(_ & _ & H & ->)|(_ & _ & _ & ->)]]];
    cbn [fst snd default].
  1-3: rewrite (has_apiKey_truthy _ H);
    destruct (has_apiKey_object _ H) as (fields & -> & _);
    cbn [normalizeConfig maxConcurrency retries autoStage respectGitignore];
    rewrite !Hother by done; done.
  done.
Qed.

(** X19.  A project [.tinypngrc] without a truthy [apiKey] is ignored as a
    whole, its other settings included: [getConfig] returns what it
    returns without that file, wherever the key comes from. *)
Theorem keyless_project_file_is_ignored (fs : gmap string string)
    (envKey projectDir : option string) :
  path_join (cwd process_cwd projectDir) ".tinypngrc"
  <> path_join (cwd process_cwd projectDir) "package.json" ->
  path_join (cwd process_cwd projectDir) ".tinypngrc" <> GLOBAL_CONFIG_PATH ->
  has_apiKey (readProjectConfig JSON_parse trim path_join fs
                (cwd process_cwd projectDir)) = false ->
  getConfig JSON_parse trim path_join GLOBAL_CONFIG_PATH process_cwd
    (delete (path_join (cwd process_cwd projectDir) ".tinypngrc") fs) envKey projectDir
  = getConfig JSON_parse trim path_join GLOBAL_CONFIG_PATH process_cwd fs envKey
      projectDir.
Proof.
  intros Hpkg Hglobal HP. rewrite !getConfig_cases.
  assert (fileConfig_of JSON_parse trim path_join GLOBAL_CONFIG_PATH
            (delete (path_join (cwd process_cwd projectDir) ".tinypngrc") fs)
            (cwd process_cwd projectDir)
          = fileConfig_of JSON_parse trim path_join GLOBAL_CONFIG_PATH fs
              (cwd process_cwd projectDir)) as ->; [|done].
  unfold fileConfig_of. rewrite HP.
  unfold readProjectConfig, readPackageJsonConfig, readGlobalConfig, PROJECT_CONFIG_NAME.
  rewrite !readJsonConfig_delete.
  rewrite decide_True by done. rewrite !decide_False by done.
  done.
Qed.

(** X20.  The files are read in a fixed order and the first with a key
    hides the others: when the project [.tinypngrc] has a truthy [apiKey]
    nothing of [package.json] or of the global file is used, and when it
    has none but the [tinypng] entry of [package.json] has one, nothing
    of the global file is used. *)
Theorem first_file_with_a_key_wins (fs fs' : gmap string string)
    (envKey projectDir : option string) :
  fs !! path_join (cwd process_cwd projectDir) ".tinypngrc"
  = fs' !! path_join (cwd process_cwd projectDir) ".tinypngrc" ->
  has_apiKey (readProjectConfig JSON_parse trim path_join fs
                (cwd process_cwd projectDir)) = true
  \/ (fs !! path_join (cwd process_cwd projectDir) "package.json"
      = fs' !! path_join (cwd process_cwd projectDir) "package.json"
      /\ has_apiKey (readPackageJsonConfig JSON_parse trim path_join fs
                       (cwd process_cwd projectDir)) = true) ->
  getConfig JSON_parse trim path_join GLOBAL_CONFIG_PATH process_cwd fs envKey projectDir
  = getConfig JSON_parse trim path_join GLOBAL_CONFIG_PATH process_cwd fs' envKey
      projectDir.
Proof.
  intros Hrc Hkey. rewrite !getConfig_cases.
  assert (fileConfig_of JSON_parse trim path_join GLOBAL_CONFIG_PATH fs
            (cwd process_cwd projectDir)
          = fileConfig_of JSON_parse trim path_join GLOBAL_CONFIG_PATH fs'
              (cwd process_cwd projectDir)) as ->; [|done].
  assert (readProjectConfig JSON_parse trim path_join fs (cwd process_cwd projectDir)
          = readProjectConfig JSON_parse trim path_join fs' (cwd process_cwd projectDir))
    as HP by (by apply readJsonConfig_agree).
  destruct (fileConfig_of_cases fs (cwd process_cwd projectDir))
    as [(H & ->)|[(HnP & H & ->)|[(HnP & HnK & _)|(HnP & HnK & _)]]].
  - destruct (fileConfig_of_cases fs' (cwd process_cwd projectDir))
      as [(_ & ->)|[(H' & _)|[(H' & _)|(H' & _)]]]; [by rewrite HP|congruence..].
  - destruct Hkey as [?|[Hpkg _]]; [congruence|].
    assert (readPackageJsonConfig JSON_parse trim path_join fs
              (cwd process_cwd projectDir)
            = readPackageJsonConfig JSON_parse trim path_join fs'
                (cwd process_cwd projectDir)) as HK.
    { unfold readPackageJsonConfig.
      by rewrite (readJsonConfig_agree fs fs' _ Hpkg). }
    destruct (fileConfig_of_cases fs' (cwd process_cwd projectDir))
      as [(H' & _)|[(_ & _ & ->)|[(_ & H' & _)|(_ & H' & _)]]];
      [congruence|by rewrite HK|congruence..].
  - destruct Hkey as [?|[_ ?]]; congruence.
  - destruct Hkey as [?|[_ ?]]; congruence.
Qed.

End Resolution.

(** * Examples *)

(** C1 at a batch of two files with a limit of 1, after the first file has
    settled. *)
Lemma concurrency_bound_witness :
  let s := scheduler (compressBatch no_payload ["a.png"; "b.png"] "key" (Some 1) None
                        (fun _ => shrinking) sample_storage [0%nat]) in
  1 <= 1
  /\ reachable no_payload ["a.png"; "b.png"] "key" (Some 1) None s
  /\ (Z.of_nat (length (active s)) <= running s /\ running s <= 1)
  /\ sequential ["a.png"; "b.png"] s.
Proof.
  intros s.
  pose proof (compressBatch_reachable no_payload ["a.png"; "b.png"] "key" (Some 1) None
                (fun _ => shrinking) sample_storage [0%nat]) as Hs.
  pose proof (concurrency_bound no_payload ["a.png"; "b.png"] "key" 1 None
                ltac:(lia)) as (Hbound & Hseq & _).
  split; [lia|]. split; [exact Hs|]. split; [exact (Hbound s Hs)|].
  exact (Hseq eq_refl s Hs).
Defined.

(** C2 at a batch of two files that has resolved. *)
Lemma outcomes_exactly_once_witness :
  let s := scheduler (compressBatch no_payload ["a.png"; "b.png"] "key" (Some 5) None
                        (fun _ => shrinking) sample_storage [1%nat; 0%nat]) in
  exists summary,
    reachable no_payload ["a.png"; "b.png"] "key" (Some 5) None s
    /\ summary ∈ resolved s
    /\ length (summary_results summary) = 2%nat
    /\ file <$> summary_results summary ≡ₚ ["a.png"; "b.png"].
Proof.
  intros s.
  pose proof (compressBatch_reachable no_payload ["a.png"; "b.png"] "key" (Some 5) None
                (fun _ => shrinking) sample_storage [1%nat; 0%nat]) as Hs.
  assert (exists summary, resolved s = [summary]) as [summary Hres].
  { eexists. vm_compute. reflexivity. }
  assert (summary ∈ resolved s) as Hin.
  { rewrite Hres. apply list_elem_of_here. }
  exists summary.
  destruct (outcomes_exactly_once no_payload ["a.png"; "b.png"] "key" (Some 5) None
              s summary Hs Hin) as (_ & _ & Hlen & Hperm & _).
  split; [exact Hs|]. split; [exact Hin|]. split; [exact Hlen|exact Hperm].
Defined.

(** C3 at a file that is not in the storage: the invocation is rejected,
    and the batch of that file never resolves. *)
Lemma unreadable_file_rejects_witness :
  sample_storage !! "missing.png" = None
  /\ inv_out (compressImage no_payload "missing.png" "key" None (Some 3) shrinking
                sample_storage) = Rejected "ENOENT"
  /\ resolved (scheduler (compressBatch no_payload ["missing.png"] "key" (Some 5)
                            (Some 3) (fun _ => shrinking) sample_storage [0%nat]))
     = [].
Proof.
  assert (sample_storage !! "missing.png" = None) as Hnone by (by vm_compute).
  destruct (unreadable_file_rejects no_payload "missing.png" "key" sample_storage Hnone)
    as (_ & Himage & Hbatch & _).
  split; [exact Hnone|]. split.
  - rewrite Himage; [done|by vm_compute].
  - apply Hbatch. apply list_elem_of_here.
Defined.

(** C5 with a budget of 2 against a service that drops every upload. *)
Lemma retry_bound_witness :
  exists r,
    compressOnce no_payload sample_storage "a.png" "key" (connection_reset 3)
    = Fulfilled (sample_storage, r)
    /\ inv_out (compressImage no_payload "a.png" "key" None (Some 2) connection_reset
                  sample_storage) = Fulfilled (Some r)
    /\ attempts_made (inv_trace (compressImage no_payload "a.png" "key" None (Some 2)
                                   connection_reset sample_storage)) = [1; 2; 3]
    /\ sleeps (inv_trace (compressImage no_payload "a.png" "key" None (Some 2)
                            connection_reset sample_storage)) = [1000; 2000]
    /\ timeline (inv_trace (compressImage no_payload "a.png" "key" None (Some 2)
                              connection_reset sample_storage))
       = [Attempt 1; Sleep 1000; Attempt 2; Sleep 2000; Attempt 3].
Proof.
  apply (retry_bound no_payload "a.png" "key" None 2 connection_reset sample_storage).
  - lia.
  - intros a _. eexists _, _. by vm_compute.
Defined.

(** C6 against a service that rejects the credential, with a budget of 3. *)
Lemma failure_classification_witness :
  let r := {| file := "a.png"; oldSize := 3; newSize := 3; success := false;
              retryable := false; errorMsg := Some "HTTP 401" |} in
  compressOnce no_payload sample_storage "a.png" "key" (unauthorized 1)
  = Fulfilled (sample_storage, r)
  /\ attempts_made (inv_trace (compressImage no_payload "a.png" "key" None (Some 3)
                                 unauthorized sample_storage)) = [1]
  /\ inv_out (compressImage no_payload "a.png" "key" None (Some 3) unauthorized
                sample_storage) = Fulfilled (Some r).
Proof.
  intros r.
  assert (compressOnce no_payload sample_storage "a.png" "key" (unauthorized 1)
          = Fulfilled (sample_storage, r)) as E by (by vm_compute).
  split; [exact E|].
  apply (proj2 (failure_classification no_payload "a.png" "key" sample_storage
                  sample_storage (unauthorized 1) r E eq_refl) eq_refl
           None (Some 3) unauthorized eq_refl).
  by vm_compute.
Defined.

(** C7 against a service that accepts the upload and returns one byte. *)
Lemma success_means_overwritten_witness :
  let r := {| file := "a.png"; oldSize := 3; newSize := 1; success := true;
              retryable := false; errorMsg := None |} in
  inv_out (compressImage no_payload "a.png" "key" None None shrinking sample_storage)
  = Fulfilled (Some r)
  /\ inv_fs (compressImage no_payload "a.png" "key" None None shrinking sample_storage)
     !! "a.png" = Some [Byte.x89].
Proof.
  intros r.
  assert (inv_out (compressImage no_payload "a.png" "key" None None shrinking
                     sample_storage) = Fulfilled (Some r)) as E by (by vm_compute).
  split; [exact E|].
  destruct (success_means_overwritten no_payload "a.png" "key" None None shrinking
              sample_storage r E) as (_ & Hsuccess & _).
  destruct (Hsuccess eq_refl)
    as (a & statusCode & location & body & imgStatus & imgData
        & _ & _ & _ & _ & _ & _ & _).
  by vm_compute.
Defined.

(** C8 at a batch of two files that has resolved: what it resolved with
    is the summary of its results. *)
Lemma summary_correctness_witness :
  let s := scheduler (compressBatch no_payload ["a.png"; "b.png"] "key" (Some 5) None
                        (fun _ => shrinking) sample_storage [1%nat; 0%nat]) in
  exists summary,
    resolved s = [summary] /\ summarise (results s) = Some summary
    /\ totalOldSize summary = 5 /\ totalNewSize summary = 2 /\ failCount summary = 0.
Proof.
  intros s.
  assert (exists summary,
            resolved s = [summary]
            /\ totalOldSize summary = 5 /\ totalNewSize summary = 2
            /\ failCount summary = 0) as (summary & Hres & Htotals).
  { eexists. vm_compute. done. }
  exists summary. split; [exact Hres|]. split; [|exact Htotals].
  apply (proj1 (proj2 (summary_correctness true no_payload))
           ["a.png"; "b.png"] "key" (Some 5) None s summary).
  - apply compressBatch_reachable.
  - rewrite Hres. apply list_elem_of_here.
Defined.

(** C10: called directly, one attempt; in a batch whose [retries] is
    omitted, four. *)
Lemma default_single_attempt_witness :
  attempts_made (inv_trace (compressImage no_payload "a.png" "key" None None
                              connection_reset sample_storage)) = [1]
  /\ (attempts_made ∘ snd)
       <$> history (compressBatch no_payload ["a.png"] "key" None None
                      (fun _ => connection_reset) sample_storage [0%nat])
     = [[1; 2; 3; 4]].
Proof.
  split; [|by vm_compute].
  exact (proj1 (proj2 (proj2 (default_single_attempt no_payload "a.png" "key" None
                                connection_reset sample_storage)))).
Defined.

(** X3 against a service that accepts the upload and returns one byte:
    3 bytes before, 1 after. *)
Lemma sizes_are_measured_witness :
  let r := {| file := "a.png"; oldSize := 3; newSize := 1; success := true;
              retryable := false; errorMsg := None |} in
  inv_out (compressImage no_payload "a.png" "key" None None shrinking sample_storage)
  = Fulfilled (Some r)
  /\ statSync_size sample_storage "a.png" = Some 3
  /\ statSync_size
       (inv_fs (compressImage no_payload "a.png" "key" None None shrinking sample_storage))
       "a.png" = Some 1.
Proof.
  intros r.
  assert (inv_out (compressImage no_payload "a.png" "key" None None shrinking
                     sample_storage) = Fulfilled (Some r)) as E by (by vm_compute).
  split; [exact E|].
  exact (proj2 (sizes_are_measured no_payload "a.png" "key" None None shrinking
                  sample_storage r E)).
Defined.

(** X4 with [retries = -1]. *)
Lemma negative_retries_witness :
  -1 < 0
  /\ compressImage no_payload "a.png" "key" None (Some (-1)) shrinking sample_storage
     = {| inv_fs := sample_storage; inv_trace := []; inv_out := Fulfilled None |}
  /\ resolved (scheduler (compressBatch no_payload ["a.png"] "key" None (Some (-1))
                            (fun _ => shrinking) sample_storage [0%nat])) = [].
Proof.
  assert (-1 < 0) as H by lia.
  destruct (negative_retries no_payload ["a.png"] "key" None (-1) H)
    as (Hone & _ & Hbatch).
  split; [exact H|]. split; [apply Hone|apply Hbatch].
Defined.

(** X5 at a batch of a readable file and a missing one. *)
Lemma unreadable_file_starves_witness :
  "missing.png" ∈ ["a.png"; "missing.png"]
  /\ sample_storage !! "missing.png" = None
  /\ resolved (scheduler (compressBatch no_payload ["a.png"; "missing.png"] "key"
                            (Some 5) (Some 3) (fun _ => shrinking) sample_storage
                            [0%nat; 0%nat; 1%nat])) = [].
Proof.
  assert ("missing.png" ∈ ["a.png"; "missing.png"]) as Hin.
  { apply list_elem_of_further, list_elem_of_here. }
  assert (sample_storage !! "missing.png" = None) as Hnone by (by vm_compute).
  split; [exact Hin|]. split; [exact Hnone|].
  exact (proj1 (unreadable_file_starves no_payload ["a.png"; "missing.png"] "key"
                  (Some 5) (Some 3) (fun _ => shrinking) sample_storage
                  [0%nat; 0%nat; 1%nat] "missing.png" Hin Hnone)).
Defined.

(** X6 at two files: a limit of 2 and a limit of 7. *)
Lemma limit_beyond_file_count_witness :
  Z.of_nat (length ["a.png"; "b.png"]) <= limit (Some 2)
  /\ Z.of_nat (length ["a.png"; "b.png"]) <= limit (Some 7)
  /\ compressBatch no_payload ["a.png"; "b.png"] "key" (Some 2) None
       (fun _ => shrinking) sample_storage [1%nat; 0%nat]
     = compressBatch no_payload ["a.png"; "b.png"] "key" (Some 7) None
         (fun _ => shrinking) sample_storage [1%nat; 0%nat].
Proof.
  assert (Z.of_nat (length ["a.png"; "b.png"]) <= limit (Some 2)) as H2
    by (by vm_compute).
  assert (Z.of_nat (length ["a.png"; "b.png"]) <= limit (Some 7)) as H7
    by (by vm_compute).
  split; [exact H2|]. split; [exact H7|].
  exact (limit_beyond_file_count no_payload ["a.png"; "b.png"] "key" (Some 2) (Some 7)
           None (fun _ => shrinking) sample_storage [1%nat; 0%nat] H2 H7).
Defined.

(** X8 at a batch of two files with a limit of 1, after the first file
    has settled: the pending invocation is that of the second file,
    labelled 2 of 2. *)
Lemma progress_labels_witness :
  let s := scheduler (compressBatch no_payload ["a.png"; "b.png"] "key" (Some 1) None
                        (fun _ => shrinking) sample_storage [0%nat]) in
  let t := {| task_file := "b.png";
              task_progress := {| progress_index := 2; progress_total := 2 |} |} in
  t ∈ active s
  /\ exists i : nat,
       admitted s !! i = Some t
       /\ ["a.png"; "b.png"] !! i = Some "b.png"
       /\ task_progress t = {| progress_index := Z.of_nat i + 1; progress_total := 2 |}.
Proof.
  intros s t.
  assert (t ∈ active s) as Ht.
  { assert (active s = [t]) as -> by (by vm_compute). apply list_elem_of_here. }
  split; [exact Ht|].
  exact (progress_labels no_payload ["a.png"; "b.png"] "key" (Some 1) None s t
           (compressBatch_reachable no_payload ["a.png"; "b.png"] "key" (Some 1) None
              (fun _ => shrinking) sample_storage [0%nat]) Ht).
Defined.

(** X9 at a batch of two files that has resolved. *)
Lemma savings_come_from_successes_witness :
  let s := scheduler (compressBatch no_payload ["a.png"; "b.png"] "key" (Some 5) None
                        (fun _ => shrinking) sample_storage [1%nat; 0%nat]) in
  exists summary,
    resolved s = [summary]
    /\ totalOldSize summary - totalNewSize summary
       = sumZ ((fun r => oldSize r - newSize r)
                 <$> filter (fun r => success r) (summary_results summary)).
Proof.
  intros s.
  assert (exists summary, resolved s = [summary]) as [summary Hres].
  { eexists. vm_compute. reflexivity. }
  exists summary. split; [exact Hres|].
  apply (savings_come_from_successes no_payload ["a.png"; "b.png"] "key" (Some 5) None s).
  - apply compressBatch_reachable.
  - rewrite Hres. apply list_elem_of_here.
Defined.

(** X10 at the two example outcomes, in both orders. *)
Lemma summary_order_independent_witness :
  example_outcomes ≡ₚ reverse example_outcomes
  /\ exists s1 s2,
       summarise (Some <$> example_outcomes) = Some s1
       /\ summarise (Some <$> reverse example_outcomes) = Some s2
       /\ summary_results s1 = example_outcomes
       /\ summary_results s2 = reverse example_outcomes
       /\ totalOldSize s1 = totalOldSize s2 /\ totalNewSize s1 = totalNewSize s2
       /\ failCount s1 = failCount s2.
Proof.
  assert (example_outcomes ≡ₚ reverse example_outcomes) as Hperm.
  { symmetry. apply reverse_Permutation. }
  split; [exact Hperm|].
  exact (summary_order_independent example_outcomes (reverse example_outcomes) Hperm).
Defined.

(** X11 at a batch of two files with a limit of 1, after the first file
    has settled. *)
Lemma work_conserving_witness :
  let s := scheduler (compressBatch no_payload ["a.png"; "b.png"] "key" (Some 1) (Some 1)
                        (fun _ => connection_reset) sample_storage [0%nat]) in
  running s = Z.min (limit (Some 1)) (2 - Z.of_nat (length (results s)))
  /\ Z.of_nat (length (active s)) = running s.
Proof.
  apply (work_conserving no_payload ["a.png"; "b.png"] "key" (Some 1) (Some 1)
           (fun _ => connection_reset) sample_storage [0%nat]).
  - intros f [->|[->|Hf]%elem_of_cons]%elem_of_cons.
    + eexists. by vm_compute.
    + eexists. by vm_compute.
    + by apply elem_of_nil in Hf.
  - by vm_compute.
  - by vm_compute.
Defined.

(** X12 at a batch of two files: not resolved after one settlement,
    resolved after two. *)
Lemma resolves_with_the_last_result_witness :
  (resolved (scheduler (compressBatch no_payload ["a.png"; "b.png"] "key" (Some 2)
                          (Some 1) (fun _ => connection_reset) sample_storage
                          [0%nat])) <> []
   <-> (2 <= 1)%nat)
  /\ (resolved (scheduler (compressBatch no_payload ["a.png"; "b.png"] "key" (Some 2)
                             (Some 1) (fun _ => connection_reset) sample_storage
                             [0%nat; 0%nat])) <> []
      <-> (2 <= 2)%nat).
Proof.
  assert (forall f, f ∈ ["a.png"; "b.png"] -> is_Some (sample_storage !! f)) as Hfs.
  { intros f [->|[->|Hf]%elem_of_cons]%elem_of_cons.
    - eexists. by vm_compute.
    - eexists. by vm_compute.
    - by apply elem_of_nil in Hf. }
  assert (["a.png"; "b.png"] <> []) as Hne by done.
  assert (1 <= limit (Some 2)) as HK by (by vm_compute).
  assert (0 <= budget (Some 1)) as Hb by (by vm_compute).
  split.
  - exact (proj1 (proj2 (resolves_with_the_last_result no_payload ["a.png"; "b.png"]
                           "key" (Some 2) (Some 1) (fun _ => connection_reset)
                           sample_storage [0%nat] Hne Hfs HK Hb))).
  - exact (proj1 (proj2 (resolves_with_the_last_result no_payload ["a.png"; "b.png"]
                           "key" (Some 2) (Some 1) (fun _ => connection_reset)
                           sample_storage [0%nat; 0%nat] Hne Hfs HK Hb))).
Defined.

(** X13 at a batch of two files in which the second settles first. *)
Lemma results_in_completion_order_witness :
  let w := compressBatch no_payload ["a.png"; "b.png"] "key" (Some 2) (Some 1)
             (fun _ => connection_reset) sample_storage [1%nat; 0%nat] in
  Forall is_Some (results (scheduler w))
  /\ omap (fmap file) (results (scheduler w)) = (fun h => task_file h.1) <$> history w.
Proof.
  apply (results_in_completion_order no_payload ["a.png"; "b.png"] "key" (Some 2)
           (Some 1) (fun _ => connection_reset) sample_storage [1%nat; 0%nat]).
  - intros f [->|[->|Hf]%elem_of_cons]%elem_of_cons.
    + eexists. by vm_compute.
    + eexists. by vm_compute.
    + by apply elem_of_nil in Hf.
  - by vm_compute.
  - by vm_compute.
Defined.

(** X14 at a batch of two distinct files, both pending. *)
Lemma one_invocation_per_file_witness :
  let s := scheduler (compressBatch no_payload ["a.png"; "b.png"] "key" (Some 2) None
                        (fun _ => shrinking) sample_storage []) in
  NoDup ["a.png"; "b.png"]
  /\ NoDup (task_file <$> active s)
  /\ NoDup (omap (fmap file) (results s))
  /\ forall t r, t ∈ active s -> Some r ∈ results s -> file r <> task_file t.
Proof.
  intros s.
  assert (NoDup ["a.png"; "b.png"]) as Hnd.
  { apply NoDup_cons_2; [|apply NoDup_singleton].
    by intros [=]%list_elem_of_singleton. }
  split; [exact Hnd|].
  exact (one_invocation_per_file no_payload ["a.png"; "b.png"] "key" (Some 2) None s Hnd
           (compressBatch_reachable no_payload ["a.png"; "b.png"] "key" (Some 2) None
              (fun _ => shrinking) sample_storage [])).
Defined.

(** X16 at a list that names a file twice. *)
Lemma deduped_batch_witness :
  let paths := ["a.png"; "b.png"; "a.png"] in
  let s := scheduler (compressBatch no_payload (dedupe paths) "key" (Some 5) None
                        (fun _ => shrinking) sample_storage [1%nat; 0%nat]) in
  exists summary,
    resolved s = [summary]
    /\ (length (summary_results summary) <= 3)%nat
    /\ length (filter (fun r => file r = "a.png") (summary_results summary)) = 1%nat.
Proof.
  intros paths s.
  assert (exists summary, resolved s = [summary]) as [summary Hres].
  { eexists. vm_compute. reflexivity. }
  exists summary. split; [exact Hres|].
  destruct (deduped_batch no_payload paths "key" (Some 5) None s summary)
    as (Hlen & Hone & _).
  - apply compressBatch_reachable.
  - rewrite Hres. apply list_elem_of_here.
  - split; [exact Hlen|]. apply Hone. apply list_elem_of_here.
Defined.

(** X18 at a project without a key file of its own, with a global file
    that sets [maxConcurrency] to 2: the key is that of the environment,
    the limit that of the global file. *)
Lemma env_key_replaces_only_the_key_witness :
  "from-env" <> EmptyString
  /\ exists cfg,
       Config.getConfig Config.sample_parse (fun s => s) Config.sample_join
         "/home/.tinypngrc" "/cwd" Config.sample_files (Some "from-env") (Some "/app")
       = Fulfilled cfg
       /\ Config.apiKey cfg = Some (Config.JString "from-env")
       /\ Config.source cfg = "env (TINYPNG_API_KEY)"
       /\ Config.maxConcurrency cfg = Config.JNumber 2.
Proof.
  assert ("from-env" <> EmptyString) as Hkey by done.
  split; [exact Hkey|].
  destruct (env_key_replaces_only_the_key Config.sample_parse (fun s => s)
              Config.sample_join "/home/.tinypngrc" "/cwd" Config.sample_files
              "from-env" (Some "/app") Hkey) as (cfg & Hcfg & Hapi & Hsrc & Hrest).
  exists cfg. do 3 (split; [done|]).
  assert (Config.getConfig Config.sample_parse (fun s => s) Config.sample_join
            "/home/.tinypngrc" "/cwd" Config.sample_files None (Some "/app")
          = Fulfilled
              {| Config.apiKey := Some (Config.JString "secret");
                 Config.maxConcurrency := Config.JNumber 2;
                 Config.retries := Config.JNumber 3;
                 Config.autoStage := true; Config.respectGitignore := true;
                 Config.source := "global (~/.tinypngrc)" |}) as E by (by vm_compute).
  rewrite E in Hrest. by destruct Hrest as (-> & _).
Defined.

(** X19 at a project whose [.tinypngrc] sets [retries] to 7 but has no
    key, the key being in the global file: the result is what it is
    without the project file. *)
Lemma keyless_project_file_is_ignored_witness :
  Config.has_apiKey
    (Config.readProjectConfig Config.sample_parse (fun s => s) Config.sample_join
       Config.sample_files (Config.cwd "/cwd" (Some "/app"))) = false
  /\ Config.getConfig Config.sample_parse (fun s => s) Config.sample_join
       "/home/.tinypngrc" "/cwd" (delete "/app/.tinypngrc" Config.sample_files) None
       (Some "/app")
     = Config.getConfig Config.sample_parse (fun s => s) Config.sample_join
         "/home/.tinypngrc" "/cwd" Config.sample_files None (Some "/app").
Proof.
  assert (Config.has_apiKey
            (Config.readProjectConfig Config.sample_parse (fun s => s) Config.sample_join
               Config.sample_files (Config.cwd "/cwd" (Some "/app"))) = false) as Hkey
    by (by vm_compute).
  split; [exact Hkey|].
  apply (keyless_project_file_is_ignored Config.sample_parse (fun s => s)
           Config.sample_join "/home/.tinypngrc" "/cwd" Config.sample_files None
           (Some "/app")).
  - by vm_compute.
  - by vm_compute.
  - exact Hkey.
Defined.

(** X20 at a project whose [.tinypngrc] has a key: [package.json] can be
    removed without a change. *)
Lemma first_file_with_a_key_wins_witness :
  Config.has_apiKey
    (Config.readProjectConfig Config.sample_parse (fun s => s) Config.sample_join
       Config.sample_project (Config.cwd "/cwd" (Some "/app"))) = true
  /\ Config.getConfig Config.sample_parse (fun s => s) Config.sample_join
       "/home/.tinypngrc" "/cwd" Config.sample_project None (Some "/app")
     = Config.getConfig Config.sample_parse (fun s => s) Config.sample_join
         "/home/.tinypngrc" "/cwd" (delete "/app/package.json" Config.sample_project)
         None (Some "/app").
Proof.
  assert (Config.has_apiKey
            (Config.readProjectConfig Config.sample_parse (fun s => s) Config.sample_join
               Config.sample_project (Config.cwd "/cwd" (Some "/app"))) = true) as Hkey
    by (by vm_compute).
  split; [exact Hkey|].
  apply (first_file_with_a_key_wins Config.sample_parse (fun s => s) Config.sample_join
           "/home/.tinypngrc" "/cwd" Config.sample_project
           (delete "/app/package.json" Config.sample_project) None (Some "/app")).
  - by vm_compute.
  - left. exact Hkey.
Defined.

(** X21 with a budget of 1 against a service that drops every upload: a
    warning for the first attempt, the failure for the second. *)
Lemma one_line_per_attempt_witness :
  let r := {| file := "a.png"; oldSize := 3; newSize := 3; success := false;
              retryable := true; errorMsg := Some "ECONNRESET" |} in
  inv_out (compressImage no_payload "a.png" "key" None (Some 1) connection_reset
             sample_storage) = Fulfilled (Some r)
  /\ logs (inv_trace (compressImage no_payload "a.png" "key" None (Some 1)
                        connection_reset sample_storage))
     = [Retrying None 1 2 "a.png" (Some "ECONNRESET") 1;
        Failed None "a.png" (Some "ECONNRESET")]
  /\ exists retried,
       logs (inv_trace (compressImage no_payload "a.png" "key" None (Some 1)
                          connection_reset sample_storage))
       = retried ++ [Failed None "a.png" (Some "ECONNRESET")]
       /\ length (logs (inv_trace (compressImage no_payload "a.png" "key" None (Some 1)
                                     connection_reset sample_storage)))
          = length (attempts_made (inv_trace (compressImage no_payload "a.png" "key"
                                                None (Some 1) connection_reset
                                                sample_storage))).
Proof.
  intros r.
  assert (inv_out (compressImage no_payload "a.png" "key" None (Some 1) connection_reset
                     sample_storage) = Fulfilled (Some r)) as E by (by vm_compute).
  split; [exact E|]. split; [by vm_compute|].
  destruct (one_line_per_attempt no_payload "a.png" "key" None (Some 1) connection_reset
              sample_storage r E) as (retried & Hlogs & Hlen & _).
  exists retried. split; [exact Hlogs|exact Hlen].
Defined.
